(** * HoneyPipe: the [>>] pipeline combinators of [honeypipe.py]

    A shallow embedding of the four building blocks of the module
    ([_condition], [Step], [conditional_func], [conditional_proc]) over a
    small model of the Python features they rely on: a heap of dicts shared by
    reference, exceptions, truthiness, keyword-argument binding, and the
    difference between calling a coroutine function and awaiting it. *)

From stdpp Require Import gmap strings list fin_maps sorting.

(** * The Python substrate *)

Module Py.

(** Objects that can be shared and mutated (dicts) live in the heap and are
    denoted by their location: two references are the same object exactly
    when the locations are equal. *)
Definition loc := nat.

Inductive value : Type :=
| VNone
| VBool (b : bool)
| VInt (n : Z)
| VStr (s : string)
| VRef (l : loc)
| VCoroutine.

Abbreviation dict := (gmap string value).

Inductive exn : Type :=
| TypeError
| KeyError
| UserError (tag : string).

Inductive outcome (A : Type) : Type :=
| Ret (a : A)
| Raise (e : exn).
Arguments Ret {A} a.
Arguments Raise {A} e.

(** What a call site passes: positional and keyword arguments. *)
Record arguments := Arguments { args : list value; kwargs : dict }.

Definition positional (d : value) : arguments := Arguments [d] ∅.
Definition keywords (kw : dict) : arguments := Arguments [] kw.

(** The trace records, in order, every call made to a function written by
    the user, with the arguments passed to it.  The event is recorded at the
    call itself, before the arguments are bound, whether the function is a
    [def] or an [async def]. *)
Inductive event : Type :=
| Call (fid : nat) (a : arguments).

Record state := State { heap : gmap loc dict; trace : list event }.

(** Every location denotes a dict; one never written is the empty dict. *)
Definition deref (h : gmap loc dict) (l : loc) : dict := default ∅ (h !! l).

(** Computations: state passing, with the state kept when an exception is
    raised (what was mutated stays mutated). *)
Definition M (A : Type) : Type := state → outcome A * state.

Definition ret {A} (a : A) : M A := λ st, (Ret a, st).
Definition raise {A} (e : exn) : M A := λ st, (Raise e, st).
Definition bind {A B} (m : M A) (k : A → M B) : M B :=
  λ st, match m st with
        | (Ret a, st') => k a st'
        | (Raise e, st') => (Raise e, st')
        end.

Declare Scope py_scope.
Delimit Scope py_scope with py.
Notation "x <- c1 ;; c2" := (bind c1 (λ x, c2))
  (at level 100, c1 at next level, right associativity) : py_scope.
Notation "c1 ;;; c2" := (bind c1 (λ _, c2))
  (at level 100, right associativity) : py_scope.
Open Scope py_scope.

Definition log (e : event) : M unit :=
  λ st, (Ret (), State (heap st) (trace st ++ [e])).

(** Run a piece of user code, which sees and changes the heap only. *)
Definition lift {A} (c : gmap loc dict → outcome A * gmap loc dict) : M A :=
  λ st, let (o, h) := c (heap st) in (o, State h (trace st)).

(** [bool(v)] as used by [if v:]. *)
Definition truthy (h : gmap loc dict) (v : value) : bool :=
  match v with
  | VNone => false
  | VBool b => b
  | VInt n => negb (n =? 0)%Z
  | VStr s => negb (String.eqb s "")
  | VRef l => negb (Nat.eqb (size (deref h l)) 0)
  | VCoroutine => true
  end.

Definition truth (v : value) : M bool := λ st, (Ret (truthy (heap st) v), st).

(** [k in d] *)
Definition py_contains (k : string) (d : value) : M bool :=
  match d with
  | VRef l => λ st, (Ret (bool_decide (is_Some (deref (heap st) l !! k))), st)
  | VStr s => ret (bool_decide (is_Some (String.index 0 k s)))
  | _ => raise TypeError
  end.

(** [d[k]] *)
Definition py_getitem (d : value) (k : string) : M value :=
  match d with
  | VRef l => λ st, match deref (heap st) l !! k with
                    | Some v => (Ret v, st)
                    | None => (Raise KeyError, st)
                    end
  | _ => raise TypeError
  end.

(** [d[k] = v] *)
Definition py_setitem (d : value) (k : string) (v : value) : M unit :=
  match d with
  | VRef l => λ st, (Ret (), State (<[l := <[k := v]> (deref (heap st) l)]> (heap st))
                                   (trace st))
  | _ => raise TypeError
  end.

(** ** Signatures and argument binding *)

Inductive kind : Type :=
| POSITIONAL_ONLY
| POSITIONAL_OR_KEYWORD
| VAR_POSITIONAL
| KEYWORD_ONLY
| VAR_KEYWORD.

Global Instance kind_eq_dec : EqDecision kind.
Proof. solve_decision. Defined.

Record parameter := Param { name : string; pkind : kind; default_value : option value }.

(** What the body of a function sees once its arguments are bound. *)
Record bound := Bound { named : dict; star_args : list value; star_kwargs : dict }.

Definition set_named (p : parameter) (v : value) (b : bound) : bound :=
  Bound (<[name p := v]> (named b)) (star_args b) (star_kwargs b).

Definition use_default (p : parameter) (b : bound) : option bound :=
  (λ v, set_named p v b) <$> default_value p.

(** Binding of a call's arguments to the parameters, in declaration order;
    [None] is the [TypeError] of a call that does not fit the signature
    (missing required argument, unexpected or doubled argument). *)
Fixpoint bind_loop (ps : list parameter) (pos : list value) (kw : dict) (b : bound)
  : option bound :=
  match ps with
  | [] => if bool_decide (pos = [] ∧ kw = ∅) then Some b else None
  | p :: ps' =>
    match pkind p with
    | POSITIONAL_ONLY =>
      match pos with
      | v :: pos' => bind_loop ps' pos' kw (set_named p v b)
      | [] => b' ← use_default p b; bind_loop ps' [] kw b'
      end
    | POSITIONAL_OR_KEYWORD =>
      match pos with
      | v :: pos' =>
        match kw !! name p with
        | Some _ => None
        | None => bind_loop ps' pos' kw (set_named p v b)
        end
      | [] =>
        match kw !! name p with
        | Some v => bind_loop ps' [] (delete (name p) kw) (set_named p v b)
        | None => b' ← use_default p b; bind_loop ps' [] kw b'
        end
      end
    | VAR_POSITIONAL =>
      bind_loop ps' [] kw (Bound (named b) pos (star_kwargs b))
    | KEYWORD_ONLY =>
      match kw !! name p with
      | Some v => bind_loop ps' pos (delete (name p) kw) (set_named p v b)
      | None => b' ← use_default p b; bind_loop ps' pos kw b'
      end
    | VAR_KEYWORD =>
      bind_loop ps' pos ∅ (Bound (named b) (star_args b) kw)
    end
  end.

Definition bind_arguments (ps : list parameter) (a : arguments) : M bound :=
  match bind_loop ps (args a) (kwargs a) (Bound ∅ [] ∅) with
  | Some b => ret b
  | None => raise TypeError
  end.

(** ** Callables *)

(** Anything that can be called.  [invoke c a] is the call expression
    [c(a)]; [await_invoke c a] is [await c(a)] inside a coroutine: the call
    followed by running the coroutine it returns to completion.
    [iscoroutinefunction] is [asyncio.iscoroutinefunction(c)] and [signature]
    is what [inspect.signature(c)] reports. *)
Record callable := Callable {
  iscoroutinefunction : bool;
  signature : list parameter;
  invoke : arguments → M value;
  await_invoke : arguments → M value
}.

(** A function written by the user of the library: [def] or [async def],
    with its parameters and its body.  The body works on the bound arguments
    and the heap. *)
Record function := Function {
  fid : nat;
  is_async : bool;
  params : list parameter;
  code : bound → gmap loc dict → outcome value * gmap loc dict
}.

(** Calling a [def] runs its body; calling an [async def] binds the
    arguments and returns a coroutine object without running anything;
    awaiting that call runs the body.  Awaiting the result of a plain [def]
    is a [TypeError] (it is no awaitable). *)
Definition fn (u : function) : callable :=
  {| iscoroutinefunction := is_async u;
     signature := params u;
     invoke := λ a,
       log (Call (fid u) a) ;;;
       b <- bind_arguments (params u) a ;;
       if is_async u then ret VCoroutine else lift (code u b);
     await_invoke := λ a,
       log (Call (fid u) a) ;;;
       b <- bind_arguments (params u) a ;;
       if is_async u then lift (code u b)
       else (lift (code u b) ;;; raise TypeError) |}.

(** The one parameter [d] of the closures the library builds. *)
Definition param_d : parameter := Param "d" POSITIONAL_OR_KEYWORD None.

Definition the_d (b : bound) : value := default VNone (named b !! "d").

(** A closure [def g(d): body] or [async def g(d): body] built by the
    library; [sig] is the signature [inspect.signature] reports for it
    (that of the wrapped function under [functools.wraps]). *)
Definition closure (is_coro : bool) (sig : list parameter) (body : value → M value)
  : callable :=
  {| iscoroutinefunction := is_coro;
     signature := sig;
     invoke := λ a,
       b <- bind_arguments [param_d] a ;;
       if is_coro then ret VCoroutine else body (the_d b);
     await_invoke := λ a,
       b <- bind_arguments [param_d] a ;;
       if is_coro then body (the_d b)
       else (body (the_d b) ;;; raise TypeError) |}.

(** Run a callable to completion: call it and, when it is a coroutine
    function, await the call. *)
Definition drive (c : callable) (a : arguments) : M value :=
  if iscoroutinefunction c then await_invoke c a else invoke c a.

(** Signatures the Python grammar allows: distinct names, and the kinds in
    the order positional-only, positional-or-keyword, [*args], keyword-only,
    [**kwargs]. *)
Definition kind_rank (k : kind) : nat :=
  match k with
  | POSITIONAL_ONLY => 0
  | POSITIONAL_OR_KEYWORD => 1
  | VAR_POSITIONAL => 2
  | KEYWORD_ONLY => 3
  | VAR_KEYWORD => 4
  end.

Definition well_formed (ps : list parameter) : Prop :=
  NoDup (name <$> ps) ∧ StronglySorted le (kind_rank ∘ pkind <$> ps).

Definition by_keyword (p : parameter) : Prop :=
  pkind p = POSITIONAL_OR_KEYWORD ∨ pkind p = KEYWORD_ONLY.

Definition fid_of (e : event) : nat := match e with Call i _ => i end.

(** How often function [i] was called in a trace. *)
Definition count_calls (i : nat) (t : list event) : nat :=
  length (filter (λ e, fid_of e = i) t).

End Py.

Import Py.
Open Scope py_scope.

(** * honeypipe.py *)

Module HoneyPipe.

(** ** 1. Low-level gate: [_condition] *)

Definition _condition (predicate : callable) (func : callable) : callable :=
  let async_wrapper := closure true (signature func) (λ d,
    p <- invoke predicate (positional d) ;;
    t <- truth p ;;
    if t then await_invoke func (positional d)
    else ret VNone) in
  let wrapper := closure false (signature func) (λ d,
    p <- invoke predicate (positional d) ;;
    t <- truth p ;;
    if t then invoke func (positional d)
    else ret VNone) in
  if iscoroutinefunction func then async_wrapper else wrapper.

(** ** 2. The [Step] class *)

Record Step := { f : callable }.

Definition __init__ (f : callable) : Step := {| f := f |}.

Definition __call__ (self : Step) (d : value) : M value :=
  invoke (f self) (positional d) ;;;     (* run side-effect *)
  ret d.                                 (* always forward the same dict *)

Definition __rrshift__ (self : Step) (d : value) : M value :=
  __call__ self d.

(** A Step instance used as a callable: calling it is [__call__]. *)
Definition instance (s : Step) : callable :=
  closure false [param_d] (__call__ s).

Definition __rshift__ (self : Step) (other : callable) : Step :=
  let other := __init__ other in
  __init__ (closure false [param_d] (λ d,
    a <- __call__ self d ;;
    b <- __call__ other d ;;
    ret b (* (a, b)[1] *))).

(** ** 3. [conditional_func]: a function that produces a value *)

(** [lambda d: True], the default of [predicate]. *)
Definition default_predicate : callable :=
  closure false [param_d] (λ _, ret (VBool true)).

(** [[p.name for p in sig.parameters.values()
      if p.kind in (p.POSITIONAL_OR_KEYWORD, p.KEYWORD_ONLY)]] *)
Definition needed_names (sig : list parameter) : list string :=
  name <$> filter (λ p, pkind p = POSITIONAL_OR_KEYWORD ∨ pkind p = KEYWORD_ONLY) sig.

(** In the words of the specification: the entries of the context whose key
    is one of the declared names.  [subset_of] is compared with it below. *)
Definition present_names (needed : list string) (cx : dict) : dict :=
  filter (λ kv, kv.1 ∈ needed) cx.

(** [{k: d[k] for k in needed if k in d}], built key by key. *)
Fixpoint subset_of (d : value) (needed : list string) (acc : dict) : M dict :=
  match needed with
  | [] => ret acc
  | k :: ks =>
    c <- py_contains k d ;;
    if c then v <- py_getitem d k ;; subset_of d ks (<[k := v]> acc)
    else subset_of d ks acc
  end.

(** [if store_return_as: d[store_return_as] = rv], with [store_return_as] a
    [str | None]: [None] and the empty string are falsy. *)
Definition store (store_return_as : option string) (d rv : value) : M unit :=
  match store_return_as with
  | Some key => if String.eqb key "" then ret () else py_setitem d key rv
  | None => ret ()
  end.

Definition conditional_func (predicate : option callable)
    (store_return_as : option string) (func : callable) : Step :=
  let predicate := default default_predicate predicate in
  let needed := needed_names (signature func) in
  let async_gate := closure true [param_d] (λ d,
    p <- invoke predicate (positional d) ;;
    t <- truth p ;;
    if t then
      kw <- subset_of d needed ∅ ;;
      rv <- await_invoke func (keywords kw) ;;
      store store_return_as d rv ;;;
      ret VNone
    else ret VNone) in
  let sync_gate := closure false [param_d] (λ d,
    p <- invoke predicate (positional d) ;;
    t <- truth p ;;
    if t then
      kw <- subset_of d needed ∅ ;;
      rv <- invoke func (keywords kw) ;;
      store store_return_as d rv ;;;
      ret VNone
    else ret VNone) in
  let gate := if iscoroutinefunction func then async_gate else sync_gate in
  __init__ gate.

(** ** 4. [conditional_proc]: a procedure that only mutates the dict *)

Definition conditional_proc (predicate : callable) (func : callable) : Step :=
  let gated :=
    if iscoroutinefunction func then
      (* async def gated(d) *)
      closure true (signature func) (λ d,
        p <- invoke predicate (positional d) ;;
        t <- truth p ;;
        if t then await_invoke func (positional d) ;;; ret VNone
        else ret VNone)
    else
      (* def gated(d) *)
      closure false (signature func) (λ d,
        p <- invoke predicate (positional d) ;;
        t <- truth p ;;
        if t then invoke func (positional d) ;;; ret VNone
        else ret VNone) in
  __init__ gated.

End HoneyPipe.

Import HoneyPipe.

(** * Sample functions and contexts *)

Module Samples.

Definition int_of (b : bound) (k : string) : option Z :=
  match named b !! k with
  | Some (VInt n) => Some n
  | _ => None
  end.

(** [def hyp2(x, y): return x**2 + y**2] *)
Definition hyp2 : function :=
  Function 1 false
    [Param "x" POSITIONAL_OR_KEYWORD None; Param "y" POSITIONAL_OR_KEYWORD None]
    (λ b h, match int_of b "x", int_of b "y" with
            | Some x, Some y => (Ret (VInt (x * x + y * y)), h)
            | _, _ => (Raise TypeError, h)
            end).

(** [def hyp2d(x, y=0): return x**2 + y**2] *)
Definition hyp2d : function :=
  Function 2 false
    [Param "x" POSITIONAL_OR_KEYWORD None;
     Param "y" POSITIONAL_OR_KEYWORD (Some (VInt 0))]
    (code hyp2).

(** [async def ahyp2(x, y): return x**2 + y**2] *)
Definition ahyp2 : function :=
  Function 3 true (params hyp2) (code hyp2).

(** [def nothing(): return None] *)
Definition nothing : function :=
  Function 4 false [] (λ _ h, (Ret VNone, h)).

(** [lambda d: d["x"] > 0] *)
Definition x_positive : function :=
  Function 10 false [param_d]
    (λ b h, match the_d b with
            | VRef l => match deref h l !! "x" with
                        | Some (VInt n) => (Ret (VBool (0 <? n)%Z), h)
                        | Some _ => (Raise TypeError, h)
                        | None => (Raise KeyError, h)
                        end
            | _ => (Raise TypeError, h)
            end).

(** [lambda d: d.get("debug")] *)
Definition debug_on : function :=
  Function 11 false [param_d]
    (λ b h, match the_d b with
            | VRef l => (Ret (default VNone (deref h l !! "debug")), h)
            | _ => (Raise TypeError, h)
            end).

(** [def mark(d): d["seen"] = True] *)
Definition mark_code (b : bound) (h : gmap loc dict) : outcome value * gmap loc dict :=
  match the_d b with
  | VRef l => (Ret VNone, <[l := <["seen" := VBool true]> (deref h l)]> h)
  | _ => (Raise TypeError, h)
  end.

Definition mark : function := Function 20 false [param_d] mark_code.

(** [async def amark(d): d["seen"] = True] *)
Definition amark : function := Function 21 true [param_d] mark_code.

(** [def bump(d): d["n"] = d.get("n", 0) + 1] *)
Definition bump : function :=
  Function 22 false [param_d]
    (λ b h, match the_d b with
            | VRef l =>
              match default (VInt 0) (deref h l !! "n") with
              | VInt n => (Ret VNone, <[l := <["n" := VInt (n + 1)]> (deref h l)]> h)
              | _ => (Raise TypeError, h)
              end
            | _ => (Raise TypeError, h)
            end).

(** [def half_done(d): d["partial"] = 1; raise RuntimeError("boom")] *)
Definition half_done : function :=
  Function 23 false [param_d]
    (λ b h, match the_d b with
            | VRef l => (Raise (UserError "boom"),
                         <[l := <["partial" := VInt 1]> (deref h l)]> h)
            | _ => (Raise TypeError, h)
            end).

(** The context [{"x": 3, "y": 4}] at location 0, nothing called yet. *)
Definition ctx : value := VRef 0.
Definition xy : dict := <["x" := VInt 3]> (<["y" := VInt 4]> ∅).
Definition st0 : state := State (<[0 := xy]> ∅) [].

(** The context [{"x": 3}]. *)
Definition only_x : dict := <["x" := VInt 3]> ∅.
Definition st_x : state := State (<[0 := only_x]> ∅) [].

(** On it, [hyp2] has been called with [x] alone, after [x_positive] ... *)
Definition st_x_called (i : nat) : state :=
  State (heap st_x) [Call 10 (positional ctx); Call i (keywords only_x)].

(** ... and [hyp2d] has returned 9, stored under ["hyp"]. *)
Definition st_x_hyp : state :=
  State (<[0 := <["hyp" := VInt 9]> only_x]> ∅) (trace (st_x_called 2)).

(** The states right after a predicate has been evaluated on the context. *)
Definition st_debug : state := State (heap st0) [Call 11 (positional ctx)].
Definition st_pos : state := State (heap st0) [Call 10 (positional ctx)].
Definition st_x_pos : state := State (heap st_x) [Call 10 (positional ctx)].

(** [bump] has run once. *)
Definition st_bumped : state :=
  State (<[0 := <["n" := VInt 1]> xy]> ∅) [Call 22 (positional ctx)].

(** [hyp2] has been called on [x] and [y], after [x_positive]. *)
Definition st_called : state :=
  State (heap st0) [Call 10 (positional ctx); Call 1 (keywords xy)].

(** ... and its result stored under ["hyp"]. *)
Definition st_hyp : state :=
  State (<[0 := <["hyp" := VInt 25]> xy]> ∅) (trace st_called).

(** [nothing] has been called and its [None] stored under ["out"]. *)
Definition st_out : state :=
  State (<[0 := <["out" := VNone]> xy]> ∅) [Call 4 (keywords ∅)].

(** [half_done] has failed half way. *)
Definition st_broken : state :=
  State (<[0 := <["partial" := VInt 1]> xy]> ∅) [Call 23 (positional ctx)].

End Samples.

(** * Pipelines as they are written *)

Module Pipeline.

(** [d >> s1 >> ... >> sn], the expression the module is made for.  Python
    groups [>>] to the left, so this is [((d >> s1) >> s2) ...]: each step is
    entered through [__rrshift__] with what the previous one returned. *)
Fixpoint feed (d : value) (steps : list Step) : M value :=
  match steps with
  | [] => ret d
  | s :: rest => v <- __rrshift__ s d ;; feed v rest
  end.

(** [s >> s1 >> ... >> sn] between Steps, grouped to the left as Python
    does: [((s >> s1) >> s2) ...]. *)
Definition chain (s : Step) (steps : list Step) : Step :=
  foldl (λ acc t, __rshift__ acc (instance t)) s steps.

(** The same chain with the parentheses to the right:
    [s1 >> (s2 >> (... >> last))]. *)
Definition chain_right (steps : list Step) (last : Step) : Step :=
  foldr (λ t acc, __rshift__ t (instance acc)) last steps.

(** [Step(Step(... Step(s)))], [n] wrappings. *)
Definition rewrap (n : nat) (s : Step) : Step :=
  Nat.iter n (λ t, __init__ (instance t)) s.

(** The [def] with the parameters and the body of [u]: what [u] would be
    without the [async] keyword. *)
Definition plain (u : function) : function :=
  Function (fid u) false (params u) (code u).

End Pipeline.

Import Pipeline.

Module MoreSamples.

Import Samples.

(** [def first(x, /): return x] *)
Definition first : function :=
  Function 30 false [Param "x" POSITIONAL_ONLY None]
    (λ b h, (Ret (default VNone (named b !! "x")), h)).

(** [def count_extra(x, *rest, **extra): return len(rest) + len(extra)] *)
Definition count_extra : function :=
  Function 31 false
    [Param "x" POSITIONAL_OR_KEYWORD None;
     Param "rest" VAR_POSITIONAL None;
     Param "extra" VAR_KEYWORD None]
    (λ b h, (Ret (VInt (Z.of_nat (length (star_args b) + size (star_kwargs b)))), h)).

(** [def double_x(x): return 2 * x], to be stored back under ["x"]. *)
Definition double_x : function :=
  Function 32 false [Param "x" POSITIONAL_OR_KEYWORD None]
    (λ b h, match int_of b "x" with
            | Some x => (Ret (VInt (2 * x)), h)
            | None => (Raise TypeError, h)
            end).

(** [lambda d: "y" in d] *)
Definition has_y : function :=
  Function 12 false [param_d]
    (λ b h, match the_d b with
            | VRef l => (Ret (VBool (bool_decide (is_Some (deref h l !! "y")))), h)
            | _ => (Raise TypeError, h)
            end).

(** [async def never(d): return False] *)
Definition never : function :=
  Function 13 true [param_d] (λ _ h, (Ret (VBool false), h)).

(** What a one-parameter function is bound to when called on the context. *)
Definition bound_ctx : bound := Bound (<["d" := ctx]> ∅) [] ∅.

(** The context with [mark]'s entry, after the calls [t]. *)
Definition st_marked (t : list event) : state :=
  State (<[0 := <["seen" := VBool true]> xy]> ∅) t.

(** [double_x] has been called on [x], after [x_positive]. *)
Definition st_double_called : state :=
  State (heap st0) [Call 10 (positional ctx); Call 32 (keywords only_x)].

(** What [count_extra] is bound to on the context [{"x": 3, "y": 4}]. *)
Definition bound_x : bound := Bound only_x [] ∅.

(** [count_extra] has returned 0, stored under ["extras"]. *)
Definition st_extras : state :=
  State (<[0 := <["extras" := VInt 0]> xy]> ∅) [Call 31 (keywords only_x)].

End MoreSamples.

(** * Basic facts about the substrate *)

Section Basics.

Lemma bind_ret_inv {A B} (m : M A) (k : A → M B) st a st' :
  m st = (Ret a, st') → bind m k st = k a st'.
Proof. intros H. unfold bind. by rewrite H. Qed.

Lemma bind_raise_inv {A B} (m : M A) (k : A → M B) st e st' :
  m st = (Raise e, st') → bind m k st = (Raise e, st').
Proof. intros H. unfold bind. by rewrite H. Qed.

(** Calling a library closure with one positional argument runs its body
    when it is a plain function ... *)
Lemma invoke_closure sig body d st :
  invoke (closure false sig body) (positional d) st = body d st.
Proof. reflexivity. Qed.

(** ... and only makes a coroutine object when it is [async def]. *)
Lemma invoke_closure_async sig body d st :
  invoke (closure true sig body) (positional d) st = (Ret VCoroutine, st).
Proof. reflexivity. Qed.

Lemma await_closure_async sig body d st :
  await_invoke (closure true sig body) (positional d) st = body d st.
Proof. reflexivity. Qed.

Lemma invoke_instance (s : Step) d st :
  invoke (instance s) (positional d) st = __call__ s d st.
Proof. reflexivity. Qed.

(** [Step.__call__], case by case on what the wrapped callable does. *)
Lemma call_returns (s : Step) d st r st' :
  invoke (f s) (positional d) st = (Ret r, st') → __call__ s d st = (Ret d, st').
Proof. intros H. unfold __call__. by rewrite (bind_ret_inv _ _ _ _ _ H). Qed.

Lemma call_raises (s : Step) d st e st' :
  invoke (f s) (positional d) st = (Raise e, st') → __call__ s d st = (Raise e, st').
Proof. intros H. unfold __call__. by rewrite (bind_raise_inv _ _ _ _ _ H). Qed.

Lemma call_inv (s : Step) d st v st' :
  __call__ s d st = (Ret v, st') →
  v = d ∧ ∃ r, invoke (f s) (positional d) st = (Ret r, st').
Proof.
  unfold __call__, bind, ret.
  destruct (invoke (f s) (positional d) st) as [[r|e] st1]; intros H.
  - injection H as <- <-. eauto.
  - discriminate.
Qed.

(** What the step built by [>>] does: left, then right, on the same [d]. *)
Lemma call_rshift (self : Step) (other : callable) d st :
  __call__ (__rshift__ self other) d st
  = (__call__ self d ;;; __call__ (__init__ other) d) st.
Proof.
  unfold __call__ at 1. unfold __rshift__. cbn [f __init__].
  unfold bind at 1. rewrite invoke_closure.
  unfold bind at 1 3.
  destruct (__call__ self d st) as [[a|e] st1]; [|reflexivity].
  unfold bind at 1.
  destruct (__call__ (__init__ other) d st1) as [[b|e] st2] eqn:Hb; [|reflexivity].
  apply call_inv in Hb as [-> _]. reflexivity.
Qed.

(** Wrapping a Step instance in [Step] again changes nothing when applied. *)
Lemma call_init_instance (s : Step) d st :
  __call__ (__init__ (instance s)) d st = __call__ s d st.
Proof.
  unfold __call__ at 1. cbn [f __init__]. unfold bind.
  rewrite invoke_instance.
  destruct (__call__ s d st) as [[v|e] st1] eqn:Hs; [|reflexivity].
  apply call_inv in Hs as [-> _]. reflexivity.
Qed.

Lemma invoke_fn_trace (u : function) a st :
  trace (invoke (fn u) a st).2 = trace st ++ [Call (fid u) a].
Proof.
  cbn. unfold bind, log, bind_arguments. cbn.
  destruct (bind_loop (params u) (args a) (kwargs a) (Bound ∅ [] ∅)) as [b|];
    cbn; [|reflexivity].
  destruct (is_async u); cbn; [reflexivity|].
  unfold lift. cbn. by destruct (code u b (heap st)).
Qed.

Lemma invoke_fn_async_heap (u : function) a st :
  is_async u = true → heap (invoke (fn u) a st).2 = heap st.
Proof.
  intros Hu. cbn. unfold bind, log, bind_arguments. cbn.
  destruct (bind_loop (params u) (args a) (kwargs a) (Bound ∅ [] ∅)) as [b|];
    cbn; [|reflexivity].
  by rewrite Hu.
Qed.

Lemma call_state (s : Step) d st :
  (__call__ s d st).2 = (invoke (f s) (positional d) st).2.
Proof.
  unfold __call__, bind, ret.
  by destruct (invoke (f s) (positional d) st) as [[r|e] st1].
Qed.

Lemma count_calls_app i t1 t2 :
  count_calls i (t1 ++ t2) = count_calls i t1 + count_calls i t2.
Proof. unfold count_calls. by rewrite filter_app, length_app. Qed.

Lemma count_calls_one i a : count_calls i [Call i a] = 1.
Proof. unfold count_calls. rewrite filter_cons_True; [reflexivity|done]. Qed.

End Basics.

(** * The Step class *)

Section StepLaws.

(** C1 (identity preservation).  Whatever Step [s] is applied to a context
    [c], through the pipeline entry [c >> s] or by calling it, the only value
    it can return is [c] itself: for a dict reference, the same location and
    not another dict with equal contents.  It does return [c] whenever the
    wrapped callable returns. *)
Theorem identity_preservation (s : Step) (c : value) (st : state) :
  __rrshift__ s c st = __call__ s c st
  ∧ (∀ v st', __rrshift__ s c st = (Ret v, st') → v = c)
  ∧ (∀ r st', invoke (f s) (positional c) st = (Ret r, st') →
              __rrshift__ s c st = (Ret c, st')).
Proof.
  split; [reflexivity|]. split.
  - intros v st' H. by apply call_inv in H as [-> _].
  - intros r st' H. by apply call_returns with r.
Qed.

(** The three steps of a chain run one after the other on the same context. *)
Lemma call_chain3 (a b d : Step) c st :
  __call__ (__rshift__ (__rshift__ a (instance b)) (instance d)) c st
  = (__call__ a c ;;; __call__ b c ;;; __call__ d c) st.
Proof.
  rewrite call_rshift. unfold bind at 1. rewrite call_rshift.
  unfold bind.
  destruct (__call__ a c st) as [[x|e] st1]; [|reflexivity].
  rewrite call_init_instance.
  destruct (__call__ b c st1) as [[y|e] st2]; [|reflexivity].
  apply call_init_instance.
Qed.

(** C2 (associativity of composition).  Both groupings of a chain of three
    Steps, applied to a context, give the same outcome, the same heap and the
    same trace: each is [a], then [b], then [d], on that context. *)
Theorem associativity (a b d : Step) (c : value) (st : state) :
  __rrshift__ (__rshift__ (__rshift__ a (instance b)) (instance d)) c st
  = (__call__ a c ;;; __call__ b c ;;; __call__ d c) st
  ∧ __rrshift__ (__rshift__ a (instance (__rshift__ b (instance d)))) c st
  = (__call__ a c ;;; __call__ b c ;;; __call__ d c) st.
Proof.
  split; unfold __rrshift__.
  - apply call_chain3.
  - rewrite call_rshift. unfold bind.
    destruct (__call__ a c st) as [[x|e] st1]; [|reflexivity].
    rewrite call_init_instance, call_rshift. unfold bind.
    destruct (__call__ b c st1) as [[y|e] st2]; [|reflexivity].
    apply call_init_instance.
Qed.

(** C6 (idempotent wrapping).  With a Step [s] as the right operand of
    [>>], the composite first runs the left operand and then does exactly
    what one application of [s] does: the [Step(s)] made by [__rshift__]
    adds no second run.  For a user function wrapped by [s] the trace grows
    by exactly one call of it. *)
Theorem idempotent_wrapping (self s : Step) (c : value) (st st1 : state) (v : value) :
  __call__ self c st = (Ret v, st1) →
  __call__ (__rshift__ self (instance s)) c st = __call__ s c st1
  ∧ (∀ u, f s = fn u →
       trace (__call__ (__rshift__ self (instance s)) c st).2
       = trace st1 ++ [Call (fid u) (positional c)]
       ∧ count_calls (fid u) (trace (__call__ (__rshift__ self (instance s)) c st).2)
         = count_calls (fid u) (trace st1) + 1).
Proof.
  intros Hself.
  assert (Heq : __call__ (__rshift__ self (instance s)) c st = __call__ s c st1).
  { rewrite call_rshift. rewrite (bind_ret_inv _ _ _ _ _ Hself).
    apply call_init_instance. }
  split; [exact Heq|].
  intros u Hu. rewrite Heq, call_state, Hu, invoke_fn_trace.
  split; [reflexivity|]. by rewrite count_calls_app, count_calls_one.
Qed.

(** C9 (return value discarded on apply).  [s(d)] calls the wrapped
    callable once, with [d]; whatever that call returns is dropped and [d] is
    returned, in the state the call left.  The call is never awaited: for an
    [async def] function the trace shows the one call and the heap is
    untouched, the coroutine object being dropped like any other result. *)
Theorem apply_discards_result (s : Step) (d : value) (st : state) :
  (∀ r st', invoke (f s) (positional d) st = (Ret r, st') →
            __call__ s d st = (Ret d, st'))
  ∧ (∀ u, f s = fn u →
       trace (__call__ s d st).2 = trace st ++ [Call (fid u) (positional d)]
       ∧ (is_async u = true → heap (__call__ s d st).2 = heap st)).
Proof.
  split.
  - intros r st' H. by apply call_returns with r.
  - intros u Hu. split.
    + by rewrite call_state, Hu, invoke_fn_trace.
    + intros Ha. rewrite call_state, Hu. by apply invoke_fn_async_heap.
Qed.

(** When the left operand of [>>] raises, so does the composite, in the
    same state. *)
Lemma rshift_raises (left : Step) (right : callable) c st st1 e :
  __call__ left c st = (Raise e, st1) →
  __call__ (__rshift__ left right) c st = (Raise e, st1).
Proof.
  intros H. rewrite call_rshift. by rewrite (bind_raise_inv _ _ _ _ _ H).
Qed.

End StepLaws.

(** * The gates *)

Section Gates.

Variables (predicate func : callable) (d : value) (st st1 : state).

Lemma truth_eq (p : value) (s : state) : truth p s = (Ret (truthy (heap s) p), s).
Proof. reflexivity. Qed.

(** The body shared by the synchronous wrappers: evaluate the predicate,
    then go on only when its value is truthy. *)
Lemma gate_body_true {A} (k : M A) (skip : M A) (p : value) :
  invoke predicate (positional d) st = (Ret p, st1) →
  truthy (heap st1) p = true →
  (p <- invoke predicate (positional d) ;; t <- truth p ;; if t then k else skip) st
  = k st1.
Proof.
  intros Hp Ht. rewrite (bind_ret_inv _ _ _ _ _ Hp).
  rewrite (bind_ret_inv _ _ _ _ _ (truth_eq p st1)). by rewrite Ht.
Qed.

Lemma gate_body_false {A} (k : M A) (skip : M A) (p : value) :
  invoke predicate (positional d) st = (Ret p, st1) →
  truthy (heap st1) p = false →
  (p <- invoke predicate (positional d) ;; t <- truth p ;; if t then k else skip) st
  = skip st1.
Proof.
  intros Hp Ht. rewrite (bind_ret_inv _ _ _ _ _ Hp).
  rewrite (bind_ret_inv _ _ _ _ _ (truth_eq p st1)). by rewrite Ht.
Qed.

Lemma gate_body_raises {A} (k : M A) (skip : M A) (e : exn) :
  invoke predicate (positional d) st = (Raise e, st1) →
  (p <- invoke predicate (positional d) ;; t <- truth p ;; if t then k else skip) st
  = (Raise e, st1).
Proof. intros Hp. by rewrite (bind_raise_inv _ _ _ _ _ Hp). Qed.

(** A step whose gate is an [async def] closure does nothing when applied:
    the call only makes a coroutine object, which [__call__] drops. *)
Lemma call_async_closure sig body :
  __call__ (__init__ (closure true sig body)) d st = (Ret d, st).
Proof. reflexivity. Qed.

Lemma call_sync_closure sig body :
  __call__ (__init__ (closure false sig body)) d st = (body d ;;; ret d) st.
Proof. reflexivity. Qed.

Lemma proc_async :
  iscoroutinefunction func = true →
  __call__ (conditional_proc predicate func) d st = (Ret d, st).
Proof. intros H. unfold conditional_proc. rewrite H. apply call_async_closure. Qed.

Lemma func_async key :
  iscoroutinefunction func = true →
  __call__ (conditional_func (Some predicate) key func) d st = (Ret d, st).
Proof. intros H. unfold conditional_func. rewrite H. apply call_async_closure. Qed.

Lemma condition_async :
  iscoroutinefunction func = true →
  __call__ (__init__ (_condition predicate func)) d st = (Ret d, st).
Proof. intros H. unfold _condition. rewrite H. apply call_async_closure. Qed.

(** The synchronous gates: the step is the wrapper's body, then [d] is
    handed back. *)
Lemma proc_sync :
  iscoroutinefunction func = false →
  __call__ (conditional_proc predicate func) d st
  = ((p <- invoke predicate (positional d) ;;
      t <- truth p ;;
      if t then invoke func (positional d) ;;; ret VNone else ret VNone) ;;; ret d) st.
Proof. intros H. unfold conditional_proc. rewrite H. apply call_sync_closure. Qed.

Lemma func_sync key :
  iscoroutinefunction func = false →
  __call__ (conditional_func (Some predicate) key func) d st
  = ((p <- invoke predicate (positional d) ;;
      t <- truth p ;;
      if t then
        kw <- subset_of d (needed_names (signature func)) ∅ ;;
        rv <- invoke func (keywords kw) ;;
        store key d rv ;;;
        ret VNone
      else ret VNone) ;;; ret d) st.
Proof. intros H. unfold conditional_func. rewrite H. apply call_sync_closure. Qed.

Lemma condition_sync :
  iscoroutinefunction func = false →
  __call__ (__init__ (_condition predicate func)) d st
  = ((p <- invoke predicate (positional d) ;;
      t <- truth p ;;
      if t then invoke func (positional d) else ret VNone) ;;; ret d) st.
Proof. intros H. unfold _condition. rewrite H. apply call_sync_closure. Qed.

End Gates.

Section GateLaws.

(** C4 (gate suppression).  When the predicate evaluates to a falsy value on
    the context, applying a conditional step made by any of the three
    builders returns the context and stops in the state the predicate's
    evaluation left (for a coroutine function the gate is not even started
    and the state is the initial one): the wrapped function is not called,
    no key is written, and with a predicate that only reads, the heap, and
    with it the context, is what it was.  Called on its own, the wrapper of
    [_condition] returns [None] (a coroutine object when it is [async def])
    in that same state. *)
Theorem gate_suppression (predicate func : callable) (key : option string)
    (c : value) (st st1 : state) (p : value) :
  invoke predicate (positional c) st = (Ret p, st1) →
  truthy (heap st1) p = false →
  let after := if iscoroutinefunction func then st else st1 in
  __call__ (conditional_func (Some predicate) key func) c st = (Ret c, after)
  ∧ __call__ (conditional_proc predicate func) c st = (Ret c, after)
  ∧ __call__ (__init__ (_condition predicate func)) c st = (Ret c, after)
  ∧ invoke (_condition predicate func) (positional c) st
    = (Ret (if iscoroutinefunction func then VCoroutine else VNone), after)
  ∧ (heap st1 = heap st → heap after = heap st).
Proof.
  intros Hp Ht after. subst after.
  destruct (iscoroutinefunction func) eqn:Hco.
  - repeat split.
    + by apply func_async.
    + by apply proc_async.
    + by apply condition_async.
    + unfold _condition. by rewrite Hco.
  - repeat split; [| | | |done].
    + rewrite func_sync by done. unfold bind at 1.
      by rewrite (gate_body_false predicate c st st1 _ _ p Hp Ht).
    + rewrite proc_sync by done. unfold bind at 1.
      by rewrite (gate_body_false predicate c st st1 _ _ p Hp Ht).
    + rewrite condition_sync by done. unfold bind at 1.
      by rewrite (gate_body_false predicate c st st1 _ _ p Hp Ht).
    + unfold _condition. rewrite Hco, invoke_closure.
      by rewrite (gate_body_false predicate c st st1 _ _ p Hp Ht).
Qed.

End GateLaws.

(** * Binding the arguments of a value-producing function *)

Section Binding.

Lemma subset_of_lookup (l : loc) (ks : list string) (acc : dict) (st : state) :
  ∃ r : dict,
    subset_of (VRef l) ks acc st = (Ret r, st) ∧
    ∀ k, r !! k = match (if decide (k ∈ ks) then deref (heap st) l !! k else None) with
                  | Some v => Some v
                  | None => acc !! k
                  end.
Proof.
  revert acc. induction ks as [|k ks IH]; intros acc.
  - exists acc. split; [reflexivity|]. intros k.
    destruct (decide (k ∈ [])) as [Hin|_]; [by apply elem_of_nil in Hin|done].
  - cbn [subset_of]. unfold bind at 1. cbn [py_contains].
    destruct (deref (heap st) l !! k) as [v|] eqn:Hk.
    + rewrite bool_decide_eq_true_2 by eauto.
      unfold bind at 1. cbn [py_getitem]. rewrite Hk.
      destruct (IH (<[k := v]> acc)) as (r & Hr & Hlook).
      exists r. split; [exact Hr|]. intros k'. rewrite Hlook.
      destruct (decide (k' = k)) as [->|Hne].
      * rewrite Hk. rewrite lookup_insert_eq.
        destruct (decide (k ∈ ks)); destruct (decide (k ∈ k :: ks)) as [|Hn];
          try done; exfalso; apply Hn; by left.
      * rewrite lookup_insert_ne by done.
        destruct (decide (k' ∈ ks)) as [Hin|Hin];
          destruct (decide (k' ∈ k :: ks)) as [Hin'|Hin']; try done.
        -- exfalso. apply Hin'. by right.
        -- apply elem_of_cons in Hin' as [?|?]; done.
    + rewrite bool_decide_eq_false_2 by (intros [? ?]; done).
      destruct (IH acc) as (r & Hr & Hlook).
      exists r. split; [exact Hr|]. intros k'. rewrite Hlook.
      destruct (decide (k' = k)) as [->|Hne].
      * rewrite Hk. by destruct (decide (k ∈ ks)); destruct (decide (k ∈ k :: ks)).
      * destruct (decide (k' ∈ ks)) as [Hin|Hin];
          destruct (decide (k' ∈ k :: ks)) as [Hin'|Hin']; try done.
        -- exfalso. apply Hin'. by right.
        -- apply elem_of_cons in Hin' as [?|?]; done.
Qed.

(** The dict comprehension of the gates computes the restriction of the
    context to the declared names, and touches nothing. *)
Lemma subset_of_present (l : loc) (needed : list string) (st : state) :
  subset_of (VRef l) needed ∅ st
  = (Ret (present_names needed (deref (heap st) l)), st).
Proof.
  destruct (subset_of_lookup l needed ∅ st) as (r & -> & Hlook).
  do 2 f_equal. apply map_eq. intros k. rewrite Hlook. unfold present_names.
  rewrite lookup_empty.
  destruct (deref (heap st) l !! k) as [v|] eqn:Hk.
  - destruct (decide (k ∈ needed)) as [Hin|Hin].
    + symmetry. by apply map_lookup_filter_Some.
    + symmetry. apply map_lookup_filter_None. right. intros v' _ Hin'. done.
  - destruct (decide (k ∈ needed)); symmetry; apply map_lookup_filter_None; by left.
Qed.

Lemma elem_of_needed_names (ps : list parameter) (k : string) :
  k ∈ needed_names ps ↔ ∃ q, q ∈ ps ∧ name q = k ∧ by_keyword q.
Proof.
  unfold needed_names. rewrite list_elem_of_fmap. split.
  - intros (q & -> & Hq). apply list_elem_of_filter in Hq as [Hk Hq]. eauto.
  - intros (q & Hq & <- & Hk). exists q. split; [done|].
    by apply list_elem_of_filter.
Qed.

Lemma present_names_lookup (ps : list parameter) (cx : dict) (k : string) (v : value) :
  present_names (needed_names ps) cx !! k = Some v
  ↔ cx !! k = Some v ∧ ∃ q, q ∈ ps ∧ name q = k ∧ by_keyword q.
Proof.
  unfold present_names. rewrite map_lookup_filter_Some. cbn.
  by rewrite elem_of_needed_names.
Qed.

(** *** The call itself: Python's argument binding *)

Lemma well_formed_tail p ps : well_formed (p :: ps) → well_formed ps.
Proof.
  intros [Hnd Hs]. split.
  - by apply NoDup_cons in Hnd as [_ ?].
  - by apply StronglySorted_inv in Hs as [? _].
Qed.

Lemma well_formed_head_name p ps q :
  well_formed (p :: ps) → q ∈ ps → name q ≠ name p.
Proof.
  intros [Hnd _] Hq Heq. apply NoDup_cons in Hnd as [Hp _].
  apply Hp. rewrite <- Heq. by apply list_elem_of_fmap_2.
Qed.

Lemma after_var_keyword p ps q :
  well_formed (p :: ps) → pkind p = VAR_KEYWORD → q ∈ ps → ¬ by_keyword q.
Proof.
  intros [_ Hs] Hp Hq Hk.
  assert (Hall : Forall (λ y, kind_rank (pkind p) ≤ y) (kind_rank ∘ pkind <$> ps)).
  { apply StronglySorted_inv in Hs as [_ H]. exact H. }
  rewrite Forall_fmap, Forall_forall in Hall.
  assert (Hle : kind_rank (pkind p) ≤ kind_rank (pkind q)) by (by apply Hall).
  rewrite Hp in Hle. destruct Hk as [Hk|Hk]; rewrite Hk in Hle; cbn in Hle; lia.
Qed.

(** A required by-keyword parameter that the call does not supply makes the
    binding fail. *)
Lemma bind_loop_missing (ps : list parameter) (kw : dict) (b : bound) (q : parameter) :
  q ∈ ps → by_keyword q → default_value q = None → kw !! name q = None →
  bind_loop ps [] kw b = None.
Proof.
  intros Hq Hk Hd. revert kw b.
  induction ps as [|p ps IH]; intros kw b Hkw; [by apply elem_of_nil in Hq|].
  apply elem_of_cons in Hq as [<-|Hq].
  - cbn [bind_loop]. unfold use_default.
    destruct Hk as [Hk|Hk]; rewrite Hk, Hkw, Hd; reflexivity.
  - specialize (IH Hq). cbn [bind_loop]. unfold use_default.
    destruct (pkind p).
    + destruct (default_value p); cbn; [by apply IH|done].
    + destruct (kw !! name p).
      * apply IH. apply lookup_delete_None. by right.
      * destruct (default_value p); cbn; [by apply IH|done].
    + by apply IH.
    + destruct (kw !! name p).
      * apply IH. apply lookup_delete_None. by right.
      * destruct (default_value p); cbn; [by apply IH|done].
    + apply IH. apply lookup_empty.
Qed.

(** Binding leaves alone the names that are no parameter. *)
Lemma bind_loop_frame (ps : list parameter) pos (kw : dict) (b0 b : bound) (n : string) :
  bind_loop ps pos kw b0 = Some b → n ∉ name <$> ps → named b !! n = named b0 !! n.
Proof.
  revert pos kw b0. induction ps as [|p ps IH]; intros pos kw b0 Hb Hn.
  - cbn in Hb. case_bool_decide; by simplify_eq.
  - rewrite fmap_cons in Hn. apply not_elem_of_cons in Hn as [Hne Hn].
    assert (Hset : ∀ v, named (set_named p v b0) !! n = named b0 !! n).
    { intros v. cbn. by rewrite lookup_insert_ne. }
    cbn [bind_loop] in Hb. unfold use_default in Hb.
    destruct (pkind p).
    + destruct pos as [|v pos].
      * destruct (default_value p) as [v|]; cbn in Hb; [|done].
        rewrite (IH _ _ _ Hb Hn). apply Hset.
      * rewrite (IH _ _ _ Hb Hn). apply Hset.
    + destruct pos as [|v pos].
      * destruct (kw !! name p) as [v|].
        -- rewrite (IH _ _ _ Hb Hn). apply Hset.
        -- destruct (default_value p) as [v|]; cbn in Hb; [|done].
           rewrite (IH _ _ _ Hb Hn). apply Hset.
      * destruct (kw !! name p); [done|].
        rewrite (IH _ _ _ Hb Hn). apply Hset.
    + by rewrite (IH _ _ _ Hb Hn).
    + destruct (kw !! name p) as [v|].
      * rewrite (IH _ _ _ Hb Hn). apply Hset.
      * destruct (default_value p) as [v|]; cbn in Hb; [|done].
        rewrite (IH _ _ _ Hb Hn). apply Hset.
    + by rewrite (IH _ _ _ Hb Hn).
Qed.

(** What a successful keyword-only call binds to a by-keyword parameter:
    the argument supplied under its name, else its default. *)
Lemma bind_loop_named (ps : list parameter) (kw : dict) (b0 b : bound) (q : parameter) :
  well_formed ps → bind_loop ps [] kw b0 = Some b → q ∈ ps → by_keyword q →
  named b !! name q = match kw !! name q with
                      | Some v => Some v
                      | None => default_value q
                      end.
Proof.
  intros Hwf Hb Hq Hk. revert kw b0 Hb.
  induction ps as [|p ps IH]; intros kw b0 Hb; [by apply elem_of_nil in Hq|].
  pose proof (well_formed_tail _ _ Hwf) as Hwf'.
  assert (Hfresh : name p ∉ name <$> ps).
  { destruct Hwf as [Hnd _]. by apply NoDup_cons in Hnd as [? _]. }
  apply elem_of_cons in Hq as [->|Hq].
  - (* the parameter is the first one *)
    cbn [bind_loop] in Hb. unfold use_default in Hb.
    destruct Hk as [Hk|Hk]; rewrite Hk in Hb;
      (destruct (kw !! name p) as [v|];
       [|destruct (default_value p) as [v|]; cbn in Hb; [|done]]);
      rewrite (bind_loop_frame _ _ _ _ _ _ Hb Hfresh); cbn;
      apply lookup_insert_eq.
  - (* it comes later *)
    pose proof (well_formed_head_name _ _ _ Hwf Hq) as Hne.
    specialize (IH Hwf' Hq).
    cbn [bind_loop] in Hb. unfold use_default in Hb.
    destruct (pkind p) eqn:Hkind.
    + destruct (default_value p); cbn in Hb; [by apply IH in Hb|done].
    + destruct (kw !! name p).
      * apply IH in Hb. by rewrite lookup_delete_ne in Hb.
      * destruct (default_value p); cbn in Hb; [by apply IH in Hb|done].
    + by apply IH in Hb.
    + destruct (kw !! name p).
      * apply IH in Hb. by rewrite lookup_delete_ne in Hb.
      * destruct (default_value p); cbn in Hb; [by apply IH in Hb|done].
    + by destruct (after_var_keyword _ _ _ Hwf Hkind Hq).
Qed.

(** When every parameter the call leaves out has a default, and the call
    supplies nothing but by-keyword parameters, the binding succeeds. *)
Lemma bind_loop_succeeds (ps : list parameter) (kw : dict) (b0 : bound) :
  well_formed ps →
  (∀ q, q ∈ ps → by_keyword q → kw !! name q = None → is_Some (default_value q)) →
  (∀ q, q ∈ ps → pkind q = POSITIONAL_ONLY → is_Some (default_value q)) →
  (∀ k, is_Some (kw !! k) → ∃ q, q ∈ ps ∧ name q = k ∧ by_keyword q) →
  is_Some (bind_loop ps [] kw b0).
Proof.
  revert kw b0. induction ps as [|p ps IH]; intros kw b0 Hwf Hdef Hpo Hkeys.
  - cbn. rewrite bool_decide_eq_true_2; [done|]. split; [done|].
    apply map_empty. intros k. destruct (kw !! k) eqn:Hk; [|done].
    destruct (Hkeys k) as (q & Hq & _); [by rewrite Hk|]. by apply elem_of_nil in Hq.
  - pose proof (well_formed_tail _ _ Hwf) as Hwf'.
    assert (Hdef' : ∀ kw' : dict, (∀ q, q ∈ ps → kw' !! name q = None → kw !! name q = None) →
              ∀ q, q ∈ ps → by_keyword q → kw' !! name q = None →
                   is_Some (default_value q)).
    { intros kw' Hsub q Hq Hk Hnone. apply Hdef; [by right|done|by apply Hsub]. }
    assert (Hpo' : ∀ q, q ∈ ps → pkind q = POSITIONAL_ONLY → is_Some (default_value q)).
    { intros q Hq. apply Hpo. by right. }
    assert (Hkeys' : ∀ kw' : dict,
              (∀ k, is_Some (kw' !! k) → is_Some (kw !! k) ∧ k ≠ name p) →
              ∀ k, is_Some (kw' !! k) → ∃ q, q ∈ ps ∧ name q = k ∧ by_keyword q).
    { intros kw' Hsub k Hk. destruct (Hsub k Hk) as [Hk' Hne].
      destruct (Hkeys k Hk') as (q & Hq & Hn & Hbk).
      apply elem_of_cons in Hq as [->|Hq]; [done|eauto]. }
    assert (Hdel : ∀ q, q ∈ ps → delete (name p) kw !! name q = None →
                        kw !! name q = None).
    { intros q Hq Hnone. apply lookup_delete_None in Hnone as [Heq|?]; [|done].
      by destruct (well_formed_head_name _ _ _ Hwf Hq). }
    assert (Hdelk : ∀ k, is_Some (delete (name p) kw !! k) →
                         is_Some (kw !! k) ∧ k ≠ name p).
    { intros k [v Hv]. apply lookup_delete_Some in Hv as [? ?]. split; [eauto|done]. }
    cbn [bind_loop]. unfold use_default.
    destruct (pkind p) eqn:Hkind.
    + destruct (Hpo p) as [v Hv]; [by left|done|]. rewrite Hv. cbn.
      apply IH; [done|by apply Hdef'|done|].
      intros k Hk. destruct (Hkeys k Hk) as (q & Hq & Hn & Hbk).
      apply elem_of_cons in Hq as [->|Hq]; [|eauto].
      destruct Hbk as [Hbk|Hbk]; congruence.
    + destruct (kw !! name p) as [v|] eqn:Hp.
      * apply IH; [done|by apply Hdef'|done|by apply Hkeys'].
      * destruct (Hdef p) as [v Hv]; [by left|by left|done|]. rewrite Hv. cbn.
        apply IH; [done|by apply Hdef'|done|].
        apply Hkeys'. intros k Hk. split; [done|]. intros ->.
        rewrite Hp in Hk. by destruct Hk.
    + apply IH; [done|by apply Hdef'|done|].
      intros k Hk. destruct (Hkeys k Hk) as (q & Hq & Hn & Hbk).
      apply elem_of_cons in Hq as [->|Hq]; [|eauto].
      destruct Hbk as [Hbk|Hbk]; congruence.
    + destruct (kw !! name p) as [v|] eqn:Hp.
      * apply IH; [done|by apply Hdef'|done|by apply Hkeys'].
      * destruct (Hdef p) as [v Hv]; [by left|by right|done|]. rewrite Hv. cbn.
        apply IH; [done|by apply Hdef'|done|].
        apply Hkeys'. intros k Hk. split; [done|]. intros ->.
        rewrite Hp in Hk. by destruct Hk.
    + apply IH; [done| |done|].
      * intros q Hq Hbk. by destruct (after_var_keyword _ _ _ Hwf Hkind Hq).
      * intros k Hk. rewrite lookup_empty in Hk. by destruct Hk.
Qed.

End Binding.

(** * Value-producing steps *)

Section ValueSteps.

Lemma drive_fn_bound (u : function) (a : arguments) (b : bound) (st : state) :
  bind_loop (params u) (args a) (kwargs a) (Bound ∅ [] ∅) = Some b →
  drive (fn u) a st
  = lift (code u b) (State (heap st) (trace st ++ [Call (fid u) a])).
Proof.
  intros Hb. unfold drive. cbn. unfold bind, log, bind_arguments. rewrite Hb.
  by destruct (is_async u).
Qed.

Lemma drive_fn_unbound (u : function) (a : arguments) (st : state) :
  bind_loop (params u) (args a) (kwargs a) (Bound ∅ [] ∅) = None →
  drive (fn u) a st
  = (Raise TypeError, State (heap st) (trace st ++ [Call (fid u) a])).
Proof.
  intros Hb. unfold drive. cbn. unfold bind, log, bind_arguments. rewrite Hb.
  by destruct (is_async u).
Qed.

Lemma store_key (k : string) (l : loc) (rv : value) (st : state) :
  k ≠ "" →
  store (Some k) (VRef l) rv st
  = (Ret (), State (<[l := <[k := rv]> (deref (heap st) l)]> (heap st)) (trace st)).
Proof.
  intros Hk. unfold store.
  destruct (String.eqb_spec k ""); [done|reflexivity].
Qed.

Lemma store_trace key d rv st : trace (store key d rv st).2 = trace st.
Proof.
  unfold store. destruct key as [k|]; [|reflexivity].
  destruct (String.eqb k ""); [reflexivity|]. by destruct d.
Qed.

(** Running the gate of a value-producing step on a context on which the
    predicate holds: one run of the function on the selected keyword
    arguments, then the store. *)
Lemma func_gate_true (predicate func : callable) key (l : loc) (st st1 : state) p :
  invoke predicate (positional (VRef l)) st = (Ret p, st1) →
  truthy (heap st1) p = true →
  drive (f (conditional_func (Some predicate) key func)) (positional (VRef l)) st
  = (rv <- drive func (keywords (present_names (needed_names (signature func))
                                               (deref (heap st1) l))) ;;
     store key (VRef l) rv ;;; ret VNone) st1.
Proof.
  intros Hp Ht. unfold conditional_func, drive. cbn [f __init__ default].
  destruct (iscoroutinefunction func) eqn:Hco; cbn [iscoroutinefunction closure].
  - rewrite await_closure_async, (gate_body_true _ _ _ _ _ _ p Hp Ht).
    unfold bind at 1. by rewrite subset_of_present.
  - rewrite invoke_closure, (gate_body_true _ _ _ _ _ _ p Hp Ht).
    unfold bind at 1. by rewrite subset_of_present.
Qed.

(** Applying the step, for a plain function, is calling that gate. *)
Lemma func_step_sync (predicate : option callable) (func : callable) key d st :
  iscoroutinefunction func = false →
  __call__ (conditional_func predicate key func) d st
  = (drive (f (conditional_func predicate key func)) (positional d) ;;; ret d) st.
Proof.
  intros Hco. unfold __call__, drive, conditional_func. cbn [f __init__].
  by rewrite Hco.
Qed.

(** C3 (selective parameter binding).  On a context on which the predicate
    holds, the gate made by [conditional_func] runs the wrapped function once
    (a call for [def], an awaited call for [async def]; applying the step is
    that call for a [def]) with keyword arguments [kw] that are exactly the
    entries of the context under the names of its positional-or-keyword and
    keyword-only parameters.  A parameter absent from the context is not
    passed: if it has no default the call's [TypeError] comes out of the
    gate, with the context as it was; if every absent parameter has a
    default the body runs with the context's values and those defaults. *)
Theorem selective_binding (predicate : callable) (key : option string) (u : function)
    (l : loc) (st st1 : state) (p : value) :
  invoke predicate (positional (VRef l)) st = (Ret p, st1) →
  truthy (heap st1) p = true →
  let cx := deref (heap st1) l in
  let kw := present_names (needed_names (params u)) cx in
  let step := conditional_func (Some predicate) key (fn u) in
  let called := State (heap st1) (trace st1 ++ [Call (fid u) (keywords kw)]) in
  (∀ k v, kw !! k = Some v
          ↔ cx !! k = Some v ∧ ∃ q, q ∈ params u ∧ name q = k ∧ by_keyword q)
  ∧ drive (f step) (positional (VRef l)) st
    = (rv <- drive (fn u) (keywords kw) ;; store key (VRef l) rv ;;; ret VNone) st1
  ∧ (∀ q, q ∈ params u → by_keyword q → cx !! name q = None →
          default_value q = None →
          drive (f step) (positional (VRef l)) st = (Raise TypeError, called))
  ∧ (well_formed (params u) →
     (∀ q, q ∈ params u → by_keyword q → cx !! name q = None →
           is_Some (default_value q)) →
     (∀ q, q ∈ params u → pkind q = POSITIONAL_ONLY → is_Some (default_value q)) →
     ∃ b, (∀ q, q ∈ params u → by_keyword q →
                named b !! name q = match cx !! name q with
                                    | Some v => Some v
                                    | None => default_value q
                                    end)
          ∧ drive (f step) (positional (VRef l)) st
            = (rv <- lift (code u b) ;; store key (VRef l) rv ;;; ret VNone) called)
  ∧ (is_async u = false →
     __call__ step (VRef l) st
     = (drive (f step) (positional (VRef l)) ;;; ret (VRef l)) st).
Proof.
  intros Hp Ht cx kw step called.
  assert (Hkw : ∀ q, q ∈ params u → by_keyword q → kw !! name q = cx !! name q).
  { intros q Hq Hbk. destruct (cx !! name q) as [v|] eqn:Hc.
    - apply present_names_lookup. eauto.
    - destruct (kw !! name q) as [v|] eqn:Hv; [|done].
      apply present_names_lookup in Hv as [Hv _]. fold cx in Hv. congruence. }
  assert (Hrun : drive (f step) (positional (VRef l)) st
    = (rv <- drive (fn u) (keywords kw) ;; store key (VRef l) rv ;;; ret VNone) st1).
  { by apply func_gate_true with p. }
  split; [apply present_names_lookup|].
  split; [exact Hrun|].
  split; [|split].
  - intros q Hq Hbk Hc Hd. rewrite Hrun. unfold bind at 1.
    rewrite drive_fn_unbound; [done|]. cbn [args kwargs keywords].
    apply bind_loop_missing with q; try done. by rewrite Hkw.
  - intros Hwf Hdef Hpo.
    destruct (bind_loop_succeeds (params u) kw (Bound ∅ [] ∅)) as [b Hb]; try done.
    + intros q Hq Hbk Hnone. apply Hdef; try done. by rewrite <- Hkw.
    + intros k [v Hv]. by apply present_names_lookup in Hv as [_ ?].
    + exists b. split.
      * intros q Hq Hbk.
        rewrite (bind_loop_named _ _ _ _ _ Hwf Hb Hq Hbk). by rewrite Hkw.
      * rewrite Hrun. unfold bind at 1 3.
        by rewrite (drive_fn_bound u (keywords kw) b st1 Hb).
  - intros Hsync. by apply func_step_sync.
Qed.

(** C5 (output storing), as the code has it.  With a non-empty key [k], on
    a context on which the predicate holds, once the wrapped function has
    returned [rv] (whatever [rv] is, [None] included) the gate assigns it to
    the context under [k]; for a plain function this is what applying the
    step does.  The gate tests the key for truthiness, so the empty string
    counts as no key. *)
Theorem output_storing (predicate func : callable) (k : string) (l : loc)
    (st st1 st2 : state) (p rv : value) :
  k ≠ "" →
  invoke predicate (positional (VRef l)) st = (Ret p, st1) →
  truthy (heap st1) p = true →
  drive func (keywords (present_names (needed_names (signature func))
                                      (deref (heap st1) l))) st1 = (Ret rv, st2) →
  let step := conditional_func (Some predicate) (Some k) func in
  let stored := State (<[l := <[k := rv]> (deref (heap st2) l)]> (heap st2))
                      (trace st2) in
  drive (f step) (positional (VRef l)) st = (Ret VNone, stored)
  ∧ deref (heap stored) l !! k = Some rv
  ∧ (iscoroutinefunction func = false →
     __rrshift__ step (VRef l) st = (Ret (VRef l), stored)).
Proof.
  intros Hk Hp Ht Hrv step stored.
  assert (Hrun : drive (f step) (positional (VRef l)) st = (Ret VNone, stored)).
  { unfold step. rewrite (func_gate_true _ _ _ _ _ _ _ Hp Ht).
    rewrite (bind_ret_inv _ _ _ _ _ Hrv).
    by rewrite (bind_ret_inv _ _ _ _ _ (store_key k l rv st2 Hk)). }
  split; [exact Hrun|]. split.
  - unfold stored, deref. cbn. rewrite lookup_insert_eq. cbn.
    apply lookup_insert_eq.
  - intros Hco. unfold __rrshift__, step. rewrite func_step_sync by done.
    by rewrite (bind_ret_inv _ _ _ _ _ Hrun).
Qed.

(** C10 (the default predicate), as the code has it.  [conditional_func]
    called without a predicate uses [lambda d: True], which returns [True] on
    anything and touches nothing.  The step it then builds from a plain
    function calls that function on every application, whatever the context
    holds, and stores what it returns when the key is a non-empty string. *)
Theorem default_predicate_always_true (key : option string) (func : callable)
    (l : loc) (st : state) :
  let kw := present_names (needed_names (signature func)) (deref (heap st) l) in
  let step := conditional_func None key func in
  (∀ d s, invoke default_predicate (positional d) s = (Ret (VBool true), s))
  ∧ (iscoroutinefunction func = false →
     __rrshift__ step (VRef l) st
     = (rv <- invoke func (keywords kw) ;; store key (VRef l) rv ;;; ret (VRef l)) st)
  ∧ (∀ u, func = fn u → is_async u = false →
       trace (__rrshift__ step (VRef l) st).2
       = trace st ++ [Call (fid u) (keywords kw)])
  ∧ (∀ k rv st2, iscoroutinefunction func = false → key = Some k → k ≠ "" →
       invoke func (keywords kw) st = (Ret rv, st2) →
       __rrshift__ step (VRef l) st
       = (Ret (VRef l),
          State (<[l := <[k := rv]> (deref (heap st2) l)]> (heap st2)) (trace st2))).
Proof.
  intros kw step.
  assert (Hdp : ∀ d s, invoke default_predicate (positional d) s = (Ret (VBool true), s))
    by reflexivity.
  assert (Hrun : iscoroutinefunction func = false →
     __rrshift__ step (VRef l) st
     = (rv <- invoke func (keywords kw) ;; store key (VRef l) rv ;;; ret (VRef l)) st).
  { intros Hco. unfold __rrshift__, step.
    change (conditional_func None key func)
      with (conditional_func (Some default_predicate) key func).
    rewrite func_step_sync by done. unfold bind at 1.
    rewrite (func_gate_true _ _ _ _ _ _ _ (Hdp (VRef l) st) eq_refl).
    unfold drive. rewrite Hco. fold kw. unfold bind.
    destruct (invoke func (keywords kw) st) as [[rv|e] s1]; [|done].
    by destruct (store key (VRef l) rv s1) as [[[]|e] s2]. }
  split; [exact Hdp|]. split; [exact Hrun|]. split.
  - intros u -> Hu. rewrite Hrun by done. unfold bind.
    pose proof (invoke_fn_trace u (keywords kw) st) as Htr.
    destruct (invoke (fn u) (keywords kw) st) as [[rv|e] s1]; [|done].
    pose proof (store_trace key (VRef l) rv s1) as Hst.
    by destruct (store key (VRef l) rv s1) as [[[]|e] s2]; cbn in *; rewrite Hst.
  - intros k rv st2 Hco -> Hk Hrv. rewrite Hrun by done.
    rewrite (bind_ret_inv _ _ _ _ _ Hrv).
    by rewrite (bind_ret_inv _ _ _ _ _ (store_key k l rv st2 Hk)).
Qed.

End ValueSteps.

(** * Failure and pass-through of the gates *)

Section GateRuns.

(** C7 (error propagation without rollback).  When the left operand of a
    composite raises on a context, the composite raises the same exception
    and stops in the very state the left operand failed in: what was written
    before the failure is still there, and nothing of the right operand has
    run.  The conditional steps catch nothing: an exception of the predicate,
    or of the wrapped function once the predicate has passed, is the
    exception of the step, in the state where it was raised. *)
Theorem error_propagation (left : Step) (right : callable) (c : value)
    (st st1 : state) (e : exn) :
  (__call__ left c st = (Raise e, st1) →
   __rrshift__ (__rshift__ left right) c st = (Raise e, st1))
  ∧ (∀ predicate func key,
       iscoroutinefunction func = false →
       left ∈ [conditional_func (Some predicate) key func;
               conditional_proc predicate func;
               __init__ (_condition predicate func)] →
       invoke predicate (positional c) st = (Raise e, st1) →
       __rrshift__ (__rshift__ left right) c st = (Raise e, st1))
  ∧ (∀ predicate func p st',
       iscoroutinefunction func = false →
       left ∈ [conditional_proc predicate func;
               __init__ (_condition predicate func)] →
       invoke predicate (positional c) st = (Ret p, st') →
       truthy (heap st') p = true →
       invoke func (positional c) st' = (Raise e, st1) →
       __rrshift__ (__rshift__ left right) c st = (Raise e, st1))
  ∧ (∀ predicate func key p st' l,
       iscoroutinefunction func = false →
       c = VRef l →
       left = conditional_func (Some predicate) key func →
       invoke predicate (positional c) st = (Ret p, st') →
       truthy (heap st') p = true →
       invoke func (keywords (present_names (needed_names (signature func))
                                            (deref (heap st') l))) st'
       = (Raise e, st1) →
       __rrshift__ (__rshift__ left right) c st = (Raise e, st1)).
Proof.
  unfold __rrshift__. split; [apply rshift_raises|]. split; [|split].
  - intros predicate func key Hco Hleft Hp. apply rshift_raises.
    repeat (apply elem_of_cons in Hleft as [->|Hleft]);
      [| | |by apply elem_of_nil in Hleft].
    + rewrite func_sync by done. unfold bind at 1.
      by rewrite (gate_body_raises _ _ _ _ _ _ _ Hp).
    + rewrite proc_sync by done. unfold bind at 1.
      by rewrite (gate_body_raises _ _ _ _ _ _ _ Hp).
    + rewrite condition_sync by done. unfold bind at 1.
      by rewrite (gate_body_raises _ _ _ _ _ _ _ Hp).
  - intros predicate func p st' Hco Hleft Hp Ht Hf. apply rshift_raises.
    repeat (apply elem_of_cons in Hleft as [->|Hleft]);
      [| |by apply elem_of_nil in Hleft].
    + rewrite proc_sync by done. unfold bind at 1.
      rewrite (gate_body_true _ _ _ _ _ _ p Hp Ht).
      by rewrite (bind_raise_inv _ _ _ _ _ Hf).
    + rewrite condition_sync by done. unfold bind at 1.
      rewrite (gate_body_true _ _ _ _ _ _ p Hp Ht). by rewrite Hf.
  - intros predicate func key p st' l Hco -> -> Hp Ht Hf. apply rshift_raises.
    rewrite func_step_sync by done. unfold bind at 1.
    rewrite (func_gate_true _ _ _ _ _ _ _ Hp Ht). unfold drive. rewrite Hco.
    by rewrite (bind_raise_inv _ _ _ _ _ Hf).
Qed.

(** Pass-through for plain functions: on a context on which the predicate
    holds, the procedure step is one application of the wrapped callable. *)
Lemma proc_pass_through (predicate func : callable) (c : value) (st st1 : state) p :
  iscoroutinefunction func = false →
  invoke predicate (positional c) st = (Ret p, st1) →
  truthy (heap st1) p = true →
  __call__ (conditional_proc predicate func) c st = __call__ (__init__ func) c st1.
Proof.
  intros Hco Hp Ht. rewrite proc_sync by done. unfold bind at 1.
  rewrite (gate_body_true _ _ _ _ _ _ p Hp Ht). unfold __call__, bind. cbn [f __init__].
  by destruct (invoke func (positional c) st1) as [[r|e] s1].
Qed.

Lemma proc_pass_through_once (predicate : callable) (u : function) (c : value)
    (st st1 : state) p :
  is_async u = false →
  invoke predicate (positional c) st = (Ret p, st1) →
  truthy (heap st1) p = true →
  trace (__call__ (conditional_proc predicate (fn u)) c st).2
  = trace st1 ++ [Call (fid u) (positional c)].
Proof.
  intros Hu Hp Ht. rewrite (proc_pass_through predicate (fn u) c st st1 p Hu Hp Ht).
  rewrite call_state. cbn [f __init__]. apply invoke_fn_trace.
Qed.

(** C8 (gate pass-through) fails for coroutine functions.  The step built
    from [async def amark(d)] with an always-true predicate hands the
    context back untouched, and [amark] is not called at all; the same for
    the value-producing step built from [async def ahyp2(x, y)].  Built from
    the plain [def mark(d)], the step runs it once. *)
Theorem async_step_does_nothing :
  __rrshift__ (conditional_proc default_predicate (fn Samples.amark))
              Samples.ctx Samples.st0
  = (Ret Samples.ctx, Samples.st0)
  ∧ __rrshift__ (conditional_func None (Some "hyp") (fn Samples.ahyp2))
                Samples.ctx Samples.st0
    = (Ret Samples.ctx, Samples.st0)
  ∧ __rrshift__ (conditional_proc default_predicate (fn Samples.mark))
                Samples.ctx Samples.st0
    = (Ret Samples.ctx,
       State (<[0 := <["seen" := VBool true]> Samples.xy]> ∅)
             [Call 20 (positional Samples.ctx)]).
Proof. repeat split; vm_compute; reflexivity. Qed.

End GateRuns.

(** * The laws at work on the sample pipeline *)

Section Instances.

Import Samples.

Local Ltac by_eval := vm_compute; reflexivity.

Lemma identity_preservation_witness :
  VRef 0 = ctx
  ∧ __rrshift__ (conditional_proc (fn debug_on) (fn mark)) ctx st0 = (Ret ctx, st_debug).
Proof.
  split.
  - apply (proj1 (proj2 (identity_preservation
                    (conditional_proc (fn debug_on) (fn mark)) ctx st0))
                 (VRef 0) st_debug).
    by_eval.
  - apply (proj2 (proj2 (identity_preservation
                    (conditional_proc (fn debug_on) (fn mark)) ctx st0))
                 VNone st_debug).
    by_eval.
Defined.

Lemma idempotent_wrapping_witness :
  count_calls 22
    (trace (__call__ (__rshift__ (__init__ (fn bump)) (instance (__init__ (fn bump))))
                     ctx st0).2) = 2.
Proof.
  destruct (idempotent_wrapping (__init__ (fn bump)) (__init__ (fn bump)) ctx st0
              st_bumped ctx ltac:(by_eval)) as [_ H].
  destruct (H bump eq_refl) as [_ Hc]. exact Hc.
Defined.

Lemma apply_discards_result_witness :
  __call__ (__init__ (fn x_positive)) ctx st0 = (Ret ctx, st_pos)
  ∧ heap (__call__ (__init__ (fn amark)) ctx st0).2 = heap st0.
Proof.
  split.
  - apply (proj1 (apply_discards_result (__init__ (fn x_positive)) ctx st0)
                 (VBool true) st_pos).
    by_eval.
  - apply (proj2 (apply_discards_result (__init__ (fn amark)) ctx st0) amark eq_refl).
    reflexivity.
Defined.

Lemma gate_suppression_witness :
  __call__ (conditional_func (Some (fn debug_on)) (Some "out") (fn hyp2)) ctx st0
  = (Ret ctx, st_debug)
  ∧ __call__ (conditional_proc (fn debug_on) (fn mark)) ctx st0 = (Ret ctx, st_debug)
  ∧ heap st_debug = heap st0.
Proof.
  destruct (gate_suppression (fn debug_on) (fn hyp2) (Some "out") ctx st0 st_debug VNone
              ltac:(by_eval) ltac:(by_eval)) as (H1 & _ & _ & _ & H4).
  destruct (gate_suppression (fn debug_on) (fn mark) None ctx st0 st_debug VNone
              ltac:(by_eval) ltac:(by_eval)) as (_ & H2 & _ & _ & _).
  split; [exact H1|]. split; [exact H2|]. apply H4. reflexivity.
Defined.

Lemma error_propagation_witness :
  __rrshift__ (__rshift__ (conditional_proc default_predicate (fn half_done))
                          (instance (conditional_proc default_predicate (fn mark))))
              ctx st0
  = (Raise (UserError "boom"), st_broken)
  ∧ deref (heap st_broken) 0 !! "partial" = Some (VInt 1)
  ∧ count_calls (fid mark) (trace st_broken) = 0
  ∧ __rrshift__ (__rshift__ (conditional_func (Some (fn x_positive)) None (fn hyp2))
                            (fn mark))
                (VRef 1) st0
    = (Raise KeyError, State (heap st0) [Call 10 (positional (VRef 1))]).
Proof.
  split; [|split; [by_eval|split; [by_eval|]]].
  - apply (proj1 (proj2 (proj2 (error_propagation
             (conditional_proc default_predicate (fn half_done))
             (instance (conditional_proc default_predicate (fn mark)))
             ctx st0 st_broken (UserError "boom"))))
           default_predicate (fn half_done) (VBool true) st0).
    + reflexivity.
    + by left.
    + by_eval.
    + by_eval.
    + by_eval.
  - apply (proj1 (proj2 (error_propagation
             (conditional_func (Some (fn x_positive)) None (fn hyp2)) (fn mark)
             (VRef 1) st0 (State (heap st0) [Call 10 (positional (VRef 1))]) KeyError))
           (fn x_positive) (fn hyp2) None).
    + reflexivity.
    + by left.
    + by_eval.
Defined.

Lemma output_storing_witness :
  __rrshift__ (conditional_func (Some (fn x_positive)) (Some "hyp") (fn hyp2)) ctx st0
  = (Ret ctx, st_hyp)
  ∧ deref (heap st_hyp) 0 !! "hyp" = Some (VInt 25)
  ∧ __rrshift__ (conditional_func (Some default_predicate) (Some "out") (fn nothing))
                ctx st0
    = (Ret ctx, st_out)
  ∧ deref (heap st_out) 0 !! "out" = Some VNone.
Proof.
  destruct (output_storing (fn x_positive) (fn hyp2) "hyp" 0 st0 st_pos st_called
              (VBool true) (VInt 25)
              ltac:(done) ltac:(by_eval) ltac:(by_eval) ltac:(by_eval))
    as (_ & H2 & H3).
  destruct (output_storing default_predicate (fn nothing) "out" 0 st0 st0
              (State (heap st0) [Call 4 (keywords ∅)])
              (VBool true) VNone
              ltac:(done) ltac:(by_eval) ltac:(by_eval) ltac:(by_eval))
    as (_ & H5 & H6).
  split; [exact (H3 eq_refl)|]. split; [exact H2|].
  split; [exact (H6 eq_refl)|exact H5].
Defined.

(** With the empty string as key the function is called and its result is
    dropped: nothing is assigned. *)
Lemma empty_key_is_not_stored :
  invoke (fn x_positive) (positional ctx) st0 = (Ret (VBool true), st_pos)
  ∧ truthy (heap st_pos) (VBool true) = true
  ∧ invoke (fn hyp2) (keywords xy) st_pos = (Ret (VInt 25), st_called)
  ∧ __rrshift__ (conditional_func (Some (fn x_positive)) (Some "") (fn hyp2)) ctx st0
    = (Ret ctx, st_called)
  ∧ deref (heap st_called) 0 !! "" = None.
Proof. repeat split; by_eval. Qed.

Lemma well_formed_hyp2d : well_formed (params hyp2d).
Proof. split; [compute_done|repeat constructor]. Qed.

Lemma selective_binding_witness :
  drive (f (conditional_func (Some (fn x_positive)) (Some "hyp") (fn hyp2)))
        (positional ctx) st_x
  = (Raise TypeError, st_x_called 1)
  ∧ ∃ b, named b !! "x" = Some (VInt 3)
         ∧ named b !! "y" = Some (VInt 0)
         ∧ drive (f (conditional_func (Some (fn x_positive)) (Some "hyp") (fn hyp2d)))
                 (positional ctx) st_x
           = (rv <- lift (code hyp2d b) ;; store (Some "hyp") ctx rv ;;; ret VNone)
               (st_x_called 2)
         ∧ __call__ (conditional_func (Some (fn x_positive)) (Some "hyp") (fn hyp2d))
                    ctx st_x
           = (Ret ctx, st_x_hyp).
Proof.
  split.
  - destruct (selective_binding (fn x_positive) (Some "hyp") hyp2 0 st_x st_x_pos
                (VBool true) ltac:(by_eval) ltac:(by_eval)) as (_ & _ & H & _).
    apply (H (Param "y" POSITIONAL_OR_KEYWORD None)); [|by left|by_eval|done].
    right. by left.
  - destruct (selective_binding (fn x_positive) (Some "hyp") hyp2d 0 st_x st_x_pos
                (VBool true) ltac:(by_eval) ltac:(by_eval)) as (_ & _ & _ & H & _).
    destruct (H well_formed_hyp2d) as (b & Hb & Hrun).
    + intros q Hq _ Hnone. apply elem_of_cons in Hq as [->|Hq].
      * vm_compute in Hnone. discriminate.
      * apply elem_of_cons in Hq as [->|Hq]; [by eexists|by apply elem_of_nil in Hq].
    + intros q Hq Hk. repeat (apply elem_of_cons in Hq as [->|Hq]); try discriminate.
      by apply elem_of_nil in Hq.
    + exists b. split; [|split; [|split]].
      * apply (Hb (Param "x" POSITIONAL_OR_KEYWORD None)); [by left|by left].
      * apply (Hb (Param "y" POSITIONAL_OR_KEYWORD (Some (VInt 0))));
          [right; by left|by left].
      * exact Hrun.
      * by_eval.
Defined.

Lemma default_predicate_witness :
  __rrshift__ (conditional_func None (Some "hyp") (fn hyp2)) ctx st0
  = (Ret ctx, State (<[0 := <["hyp" := VInt 25]> xy]> ∅) [Call 1 (keywords xy)])
  ∧ trace (__rrshift__ (conditional_func None None (fn hyp2)) ctx st_x).2
    = [Call 1 (keywords only_x)].
Proof.
  split.
  - destruct (default_predicate_always_true (Some "hyp") (fn hyp2) 0 st0)
      as (_ & _ & _ & H).
    exact (H "hyp" (VInt 25) (State (heap st0) [Call 1 (keywords xy)])
             eq_refl eq_refl ltac:(done) ltac:(by_eval)).
  - destruct (default_predicate_always_true None (fn hyp2) 0 st_x) as (_ & _ & H & _).
    exact (H hyp2 eq_refl eq_refl).
Defined.

(** Without a predicate, a key that is the empty string is still not
    stored, and a coroutine function is still not called. *)
Lemma default_predicate_not_enough :
  __rrshift__ (conditional_func None (Some "") (fn nothing)) ctx st0
  = (Ret ctx, State (heap st0) [Call 4 (keywords ∅)])
  ∧ deref (heap st0) 0 !! "" = None
  ∧ __rrshift__ (conditional_func None (Some "hyp") (fn ahyp2)) ctx st0 = (Ret ctx, st0)
  ∧ count_calls (fid ahyp2) (trace st0) = 0.
Proof. repeat split; by_eval. Qed.

End Instances.

(** * Whole pipelines *)

Section Pipelines.

Lemma feed_cons (s : Step) (rest : list Step) d st :
  feed d (s :: rest) st = (__call__ s d ;;; feed d rest) st.
Proof.
  cbn [feed]. unfold __rrshift__, bind.
  destruct (__call__ s d st) as [[v|e] st1] eqn:Hs; [|reflexivity].
  by apply call_inv in Hs as [-> _].
Qed.

Lemma feed_two (s t : Step) (rest : list Step) d st :
  feed d (s :: t :: rest) st = feed d (__rshift__ s (instance t) :: rest) st.
Proof.
  rewrite (feed_cons (__rshift__ s (instance t))), feed_cons.
  unfold bind. rewrite call_rshift. unfold bind.
  destruct (__call__ s d st) as [[v|e] st1]; [|reflexivity].
  rewrite feed_cons, call_init_instance. reflexivity.
Qed.

(** X1.  Feeding a context through the steps one [>>] at a time is the
    same as applying the single Step the steps chain into, whichever way the
    chain is parenthesised: same outcome, same heap, same trace. *)
Theorem feed_is_chain (s : Step) (steps : list Step) (last : Step)
    (d : value) (st : state) :
  feed d (s :: steps) st = __rrshift__ (chain s steps) d st
  ∧ feed d (steps ++ [last]) st = __rrshift__ (chain_right steps last) d st.
Proof.
  split.
  - revert s. induction steps as [|t steps IH]; intros s.
    + rewrite feed_cons. cbn. unfold __rrshift__, __call__, bind, ret.
      by destruct (invoke (f s) (positional d) st) as [[r|e] st1].
    + rewrite feed_two. apply IH.
  - revert st. induction steps as [|t steps IH]; intros st.
    + cbn [app chain_right foldr]. rewrite feed_cons.
      unfold __rrshift__, __call__, bind, ret. cbn.
      by destruct (invoke (f last) (positional d) st) as [[r|e] st1].
    + cbn [app]. rewrite feed_cons. unfold __rrshift__.
      change (chain_right (t :: steps) last)
        with (__rshift__ t (instance (chain_right steps last))).
      rewrite call_rshift. unfold bind.
      destruct (__call__ t d st) as [[v|e] st1]; [|reflexivity].
      rewrite call_init_instance. apply IH.
Qed.


(** X3.  [Step(Step(... Step(s)))] applied to a context does what [s]
    does, however often [s] is wrapped. *)
Theorem rewrap_is_harmless (n : nat) (s : Step) (d : value) (st : state) :
  __call__ (rewrap n s) d st = __call__ s d st.
Proof.
  induction n as [|n IH]; [reflexivity|].
  change (rewrap (S n) s) with (__init__ (instance (rewrap n s))).
  by rewrite call_init_instance.
Qed.

End Pipelines.

(** * More on the gates *)

Section MoreGates.

(** X4.  On a context on which the predicate holds, the wrapper made by
    [_condition] for a plain function is the call of that function: it
    returns what the function returns and raises what it raises.  The gate
    of [conditional_proc] runs the function in the same way but returns
    [None] whatever the function returned. *)
Theorem wrapper_forwards_gate_discards (predicate func : callable) (d : value)
    (st st1 : state) (p : value) :
  iscoroutinefunction func = false →
  invoke predicate (positional d) st = (Ret p, st1) →
  truthy (heap st1) p = true →
  invoke (_condition predicate func) (positional d) st
  = invoke func (positional d) st1
  ∧ (∀ r st2, invoke func (positional d) st1 = (Ret r, st2) →
       invoke (f (conditional_proc predicate func)) (positional d) st
       = (Ret VNone, st2))
  ∧ (∀ e st2, invoke func (positional d) st1 = (Raise e, st2) →
       invoke (f (conditional_proc predicate func)) (positional d) st
       = (Raise e, st2)).
Proof.
  intros Hco Hp Ht. split; [|split].
  - unfold _condition. rewrite Hco, invoke_closure.
    apply (gate_body_true predicate d st st1 _ _ p Hp Ht).
  - intros r st2 Hf. unfold conditional_proc. rewrite Hco. cbn [f __init__].
    rewrite invoke_closure, (gate_body_true predicate d st st1 _ _ p Hp Ht).
    by rewrite (bind_ret_inv _ _ _ _ _ Hf).
  - intros e st2 Hf. unfold conditional_proc. rewrite Hco. cbn [f __init__].
    rewrite invoke_closure, (gate_body_true predicate d st st1 _ _ p Hp Ht).
    by rewrite (bind_raise_inv _ _ _ _ _ Hf).
Qed.

(** X5.  For a plain function and a context on which the predicate holds,
    a conditional step is one run of the function and nothing more: the
    steps of [conditional_proc] and [_condition] do what [Step(func)] does
    from the state the predicate left, and the trace of each of the three
    steps is that state's trace followed by one call of the function, with
    the context for the procedures and with the selected keyword arguments
    for [conditional_func]. *)
Theorem plain_pass_through (predicate : callable) (u : function)
    (key : option string) (l : loc) (st st1 : state) (p : value) :
  is_async u = false →
  invoke predicate (positional (VRef l)) st = (Ret p, st1) →
  truthy (heap st1) p = true →
  let kw := present_names (needed_names (params u)) (deref (heap st1) l) in
  __call__ (conditional_proc predicate (fn u)) (VRef l) st
  = __call__ (__init__ (fn u)) (VRef l) st1
  ∧ __call__ (__init__ (_condition predicate (fn u))) (VRef l) st
    = __call__ (__init__ (fn u)) (VRef l) st1
  ∧ trace (__call__ (conditional_proc predicate (fn u)) (VRef l) st).2
    = trace st1 ++ [Call (fid u) (positional (VRef l))]
  ∧ trace (__call__ (conditional_func (Some predicate) key (fn u)) (VRef l) st).2
    = trace st1 ++ [Call (fid u) (keywords kw)].
Proof.
  intros Hu Hp Ht kw.
  assert (Hproc : __call__ (conditional_proc predicate (fn u)) (VRef l) st
                  = __call__ (__init__ (fn u)) (VRef l) st1)
    by (by apply proc_pass_through with p).
  split; [exact Hproc|]. split; [|split].
  - rewrite condition_sync by done. unfold bind at 1.
    by rewrite (gate_body_true predicate (VRef l) st st1 _ _ p Hp Ht).
  - rewrite Hproc, call_state. apply invoke_fn_trace.
  - rewrite func_step_sync by done. unfold bind at 1.
    rewrite (func_gate_true _ _ _ _ _ _ _ Hp Ht).
    unfold drive. cbn [iscoroutinefunction fn]. rewrite Hu.
    change (signature (fn u)) with (params u). fold kw. unfold bind.
    pose proof (invoke_fn_trace u (keywords kw) st1) as Htr.
    destruct (invoke (fn u) (keywords kw) st1) as [[rv|e] s1]; [|done].
    pose proof (store_trace key (VRef l) rv s1) as Hst.
    by destruct (store key (VRef l) rv s1) as [[[]|e] s2]; cbn in *; rewrite Hst.
Qed.

(** X6.  Whatever the predicate and the context, a conditional step built
    from a coroutine function hands the context back and changes nothing, not
    even the trace: neither the predicate nor the function is called.  As the
    right operand of [>>] it adds nothing to what the left operand does. *)
Theorem coroutine_steps_are_inert (predicate func : callable) (key : option string)
    (left : Step) (d : value) (st : state) :
  iscoroutinefunction func = true →
  __call__ (conditional_proc predicate func) d st = (Ret d, st)
  ∧ __call__ (conditional_func (Some predicate) key func) d st = (Ret d, st)
  ∧ __call__ (__init__ (_condition predicate func)) d st = (Ret d, st)
  ∧ __call__ (__rshift__ left (instance (conditional_proc predicate func))) d st
    = __call__ left d st.
Proof.
  intros Hco. split; [by apply proc_async|]. split; [by apply func_async|].
  split; [by apply condition_async|].
  rewrite call_rshift. unfold bind.
  destruct (__call__ left d st) as [[v|e] st1] eqn:Hl; [|reflexivity].
  apply call_inv in Hl as [-> _].
  rewrite call_init_instance. by apply proc_async.
Qed.

Lemma await_fn_plain (u : function) (a : arguments) (s : state) :
  is_async u = true → await_invoke (fn u) a s = invoke (fn (plain u)) a s.
Proof.
  intros Hu. cbn. unfold bind. rewrite Hu. reflexivity.
Qed.

(** X7.  Awaited, the gate a builder makes for [async def u] does what the
    gate it makes for the same function written as a plain [def] does when
    called: the asynchronous branches mirror the synchronous ones. *)
Theorem awaited_gate_mirrors_plain (predicate : callable) (u : function)
    (key : option string) (d : value) (st : state) :
  is_async u = true →
  await_invoke (_condition predicate (fn u)) (positional d) st
  = invoke (_condition predicate (fn (plain u))) (positional d) st
  ∧ await_invoke (f (conditional_proc predicate (fn u))) (positional d) st
    = invoke (f (conditional_proc predicate (fn (plain u)))) (positional d) st
  ∧ await_invoke (f (conditional_func (Some predicate) key (fn u))) (positional d) st
    = invoke (f (conditional_func (Some predicate) key (fn (plain u)))) (positional d) st.
Proof.
  intros Hu. split; [|split].
  - unfold _condition. cbn [iscoroutinefunction fn plain is_async]. rewrite Hu.
    rewrite await_closure_async, invoke_closure. unfold bind.
    destruct (invoke predicate (positional d) st) as [[p|e] s1]; [|reflexivity].
    destruct (truth p s1) as [[[]|e] s2]; try reflexivity.
    by apply await_fn_plain.
  - unfold conditional_proc. cbn [iscoroutinefunction fn plain is_async f __init__].
    rewrite Hu. rewrite await_closure_async, invoke_closure. unfold bind.
    destruct (invoke predicate (positional d) st) as [[p|e] s1]; [|reflexivity].
    destruct (truth p s1) as [[[]|e] s2]; try reflexivity.
    by rewrite (await_fn_plain u (positional d) s2 Hu).
  - unfold conditional_func.
    change (default default_predicate (Some predicate)) with predicate.
    cbn [iscoroutinefunction fn plain is_async f __init__ signature params].
    rewrite Hu. rewrite await_closure_async, invoke_closure. unfold bind.
    destruct (invoke predicate (positional d) st) as [[p|e] s1]; [|reflexivity].
    destruct (truth p s1) as [[[]|e] s2]; try reflexivity.
    destruct (subset_of d (needed_names (params u)) ∅ s2) as [[kw|e] s3]; [|reflexivity].
    by rewrite (await_fn_plain u (keywords kw) s3 Hu).
Qed.

(** X8.  Gates nest.  [conditional_proc(p2)(_condition(p1)(func))] for a
    plain function evaluates [p2], then [p1], then runs the function, and
    stops at the first predicate that is falsy; the wrapper of [_condition]
    is a plain function and reports the signature of [func], like [func]
    itself. *)
Theorem gates_nest (p1 p2 func : callable) (d : value) (st st1 : state) (v2 : value) :
  iscoroutinefunction func = false →
  invoke p2 (positional d) st = (Ret v2, st1) →
  iscoroutinefunction (_condition p1 func) = false
  ∧ signature (_condition p1 func) = signature func
  ∧ (truthy (heap st1) v2 = false →
     __call__ (conditional_proc p2 (_condition p1 func)) d st = (Ret d, st1))
  ∧ (∀ v1 st2, truthy (heap st1) v2 = true →
       invoke p1 (positional d) st1 = (Ret v1, st2) →
       truthy (heap st2) v1 = false →
       __call__ (conditional_proc p2 (_condition p1 func)) d st = (Ret d, st2))
  ∧ (∀ v1 st2, truthy (heap st1) v2 = true →
       invoke p1 (positional d) st1 = (Ret v1, st2) →
       truthy (heap st2) v1 = true →
       __call__ (conditional_proc p2 (_condition p1 func)) d st
       = __call__ (__init__ func) d st2).
Proof.
  intros Hco Hp2.
  assert (Hw : iscoroutinefunction (_condition p1 func) = false)
    by (unfold _condition; by rewrite Hco).
  split; [exact Hw|]. split; [unfold _condition; by rewrite Hco|].
  split; [|split].
  - intros Ht. rewrite proc_sync by done. unfold bind at 1.
    by rewrite (gate_body_false p2 d st st1 _ _ v2 Hp2 Ht).
  - intros v1 st2 Ht2 Hp1 Ht1.
    rewrite (proc_pass_through p2 (_condition p1 func) d st st1 v2 Hw Hp2 Ht2).
    rewrite condition_sync by done. unfold bind at 1.
    by rewrite (gate_body_false p1 d st1 st2 _ _ v1 Hp1 Ht1).
  - intros v1 st2 Ht2 Hp1 Ht1.
    rewrite (proc_pass_through p2 (_condition p1 func) d st st1 v2 Hw Hp2 Ht2).
    rewrite condition_sync by done. unfold bind at 1.
    by rewrite (gate_body_true p1 d st1 st2 _ _ v1 Hp1 Ht1).
Qed.

End MoreGates.

(** * More on value-producing steps *)

Section MoreValueSteps.

(** X9.  Without a key, or with the empty string as key, a value-producing
    step whose predicate holds runs the function and writes nothing: it ends
    in the very state the function's run left, the returned value dropped. *)
Theorem no_key_no_write (predicate func : callable) (key : option string) (l : loc)
    (st st1 st2 : state) (p rv : value) :
  key = None ∨ key = Some "" →
  invoke predicate (positional (VRef l)) st = (Ret p, st1) →
  truthy (heap st1) p = true →
  drive func (keywords (present_names (needed_names (signature func))
                                      (deref (heap st1) l))) st1 = (Ret rv, st2) →
  drive (f (conditional_func (Some predicate) key func)) (positional (VRef l)) st
  = (Ret VNone, st2)
  ∧ (iscoroutinefunction func = false →
     __rrshift__ (conditional_func (Some predicate) key func) (VRef l) st
     = (Ret (VRef l), st2)).
Proof.
  intros Hkey Hp Ht Hrv.
  assert (Hrun : drive (f (conditional_func (Some predicate) key func))
                       (positional (VRef l)) st = (Ret VNone, st2)).
  { rewrite (func_gate_true _ _ _ _ _ _ _ Hp Ht).
    rewrite (bind_ret_inv _ _ _ _ _ Hrv). by destruct Hkey as [->| ->]. }
  split; [exact Hrun|].
  intros Hco. unfold __rrshift__. rewrite func_step_sync by done.
  by rewrite (bind_ret_inv _ _ _ _ _ Hrun).
Qed.

(** X10.  Storing the result touches one entry only.  After the gate has
    stored under the key [k], every other key of the context, every other
    dict of the heap and the trace are as the function's run left them; an
    entry already under [k] is replaced. *)
Theorem store_is_local (predicate func : callable) (k : string) (l : loc)
    (st st1 st2 : state) (p rv : value) :
  k ≠ "" →
  invoke predicate (positional (VRef l)) st = (Ret p, st1) →
  truthy (heap st1) p = true →
  drive func (keywords (present_names (needed_names (signature func))
                                      (deref (heap st1) l))) st1 = (Ret rv, st2) →
  let after := (drive (f (conditional_func (Some predicate) (Some k) func))
                      (positional (VRef l)) st).2 in
  (∀ k', k' ≠ k → deref (heap after) l !! k' = deref (heap st2) l !! k')
  ∧ (∀ l', l' ≠ l → deref (heap after) l' = deref (heap st2) l')
  ∧ trace after = trace st2
  ∧ (∀ old, deref (heap st2) l !! k = Some old → deref (heap after) l !! k = Some rv).
Proof.
  intros Hk Hp Ht Hrv after.
  assert (Hafter : after = State (<[l := <[k := rv]> (deref (heap st2) l)]> (heap st2))
                                 (trace st2)).
  { unfold after. rewrite (func_gate_true _ _ _ _ _ _ _ Hp Ht).
    rewrite (bind_ret_inv _ _ _ _ _ Hrv).
    by rewrite (bind_ret_inv _ _ _ _ _ (store_key k l rv st2 Hk)). }
  rewrite Hafter. cbn [heap trace]. split; [|split; [|split]].
  - intros k' Hne. unfold deref at 1. rewrite lookup_insert_eq. cbn.
    by rewrite lookup_insert_ne.
  - intros l' Hne. unfold deref. by rewrite lookup_insert_ne.
  - reflexivity.
  - intros old _. unfold deref at 1. rewrite lookup_insert_eq. cbn.
    apply lookup_insert_eq.
Qed.

Lemma bind_loop_positional_only (ps : list parameter) (kw : dict) (b : bound)
    (q : parameter) :
  q ∈ ps → pkind q = POSITIONAL_ONLY → default_value q = None →
  bind_loop ps [] kw b = None.
Proof.
  intros Hq Hk Hd. revert kw b.
  induction ps as [|p ps IH]; intros kw b; [by apply elem_of_nil in Hq|].
  apply elem_of_cons in Hq as [<-|Hq].
  - cbn [bind_loop]. unfold use_default. by rewrite Hk, Hd.
  - specialize (IH Hq). cbn [bind_loop]. unfold use_default.
    destruct (pkind p).
    + destruct (default_value p); cbn; [by apply IH|done].
    + destruct (kw !! name p); [by apply IH|].
      destruct (default_value p); cbn; [by apply IH|done].
    + by apply IH.
    + destruct (kw !! name p); [by apply IH|].
      destruct (default_value p); cbn; [by apply IH|done].
    + by apply IH.
Qed.

Lemma same_name_same_parameter (ps : list parameter) (q q' : parameter) :
  NoDup (name <$> ps) → q ∈ ps → q' ∈ ps → name q = name q' → q = q'.
Proof.
  induction ps as [|p ps IH]; intros Hnd Hq Hq' Hn; [by apply elem_of_nil in Hq|].
  rewrite fmap_cons in Hnd. apply NoDup_cons in Hnd as [Hp Hnd].
  apply elem_of_cons in Hq as [->|Hq]; apply elem_of_cons in Hq' as [->|Hq'].
  - done.
  - destruct Hp. rewrite Hn. by apply list_elem_of_fmap_2.
  - destruct Hp. rewrite <- Hn. by apply list_elem_of_fmap_2.
  - by apply IH.
Qed.

(** X11.  A positional-only parameter is never supplied: its name is not
    among those looked up in the context, so a function that has one without
    a default cannot be run by [conditional_func].  Whatever the context
    holds, once the predicate has passed the gate raises the call's
    [TypeError], with the context as it was. *)
Theorem positional_only_is_never_supplied (predicate : callable) (key : option string)
    (u : function) (l : loc) (st st1 : state) (p : value) (q : parameter) :
  invoke predicate (positional (VRef l)) st = (Ret p, st1) →
  truthy (heap st1) p = true →
  q ∈ params u → pkind q = POSITIONAL_ONLY →
  let kw := present_names (needed_names (params u)) (deref (heap st1) l) in
  (NoDup (name <$> params u) →
   (name q ∉ needed_names (params u)) ∧ kw !! name q = None)
  ∧ (default_value q = None →
     drive (f (conditional_func (Some predicate) key (fn u))) (positional (VRef l)) st
     = (Raise TypeError, State (heap st1) (trace st1 ++ [Call (fid u) (keywords kw)]))).
Proof.
  intros Hp Ht Hq Hk kw. split.
  - intros Hnd.
    assert (Hnot : name q ∉ needed_names (params u)).
    { intros Hin. apply elem_of_needed_names in Hin as (q' & Hq' & Hn & Hbk).
      rewrite (same_name_same_parameter _ _ _ Hnd Hq' Hq Hn) in Hbk.
      destruct Hbk as [Hbk|Hbk]; congruence. }
    split; [exact Hnot|].
    destruct (kw !! name q) as [v|] eqn:Hv; [|done].
    apply map_lookup_filter_Some in Hv as [_ Hin]. done.
  - intros Hd. rewrite (func_gate_true _ _ _ _ _ _ _ Hp Ht). unfold bind at 1.
    change (signature (fn u)) with (params u). fold kw.
    rewrite drive_fn_unbound; [done|]. cbn [args kwargs keywords].
    by apply bind_loop_positional_only with q.
Qed.

(** Binding a call that passes no positional argument, and keyword
    arguments for by-keyword parameters only, leaves [*args] and [**kwargs]
    empty. *)
Lemma bind_loop_variadics (ps : list parameter) (kw : dict) (b0 b : bound) :
  well_formed ps →
  (∀ k, is_Some (kw !! k) → ∃ q, q ∈ ps ∧ name q = k ∧ by_keyword q) →
  star_args b0 = [] → star_kwargs b0 = ∅ →
  bind_loop ps [] kw b0 = Some b →
  star_args b = [] ∧ star_kwargs b = ∅.
Proof.
  revert kw b0. induction ps as [|p ps IH]; intros kw b0 Hwf Hkeys Ha Hk Hb.
  - cbn in Hb. case_bool_decide; by simplify_eq.
  - pose proof (well_formed_tail _ _ Hwf) as Hwf'.
    assert (Hsame : ¬ by_keyword p ∨ kw !! name p = None →
              ∀ k, is_Some (kw !! k) → ∃ q, q ∈ ps ∧ name q = k ∧ by_keyword q).
    { intros Hp k Hsome. destruct (Hkeys k Hsome) as (q & Hq & Hn & Hbk).
      apply elem_of_cons in Hq as [->|Hq]; [|eauto].
      destruct Hp as [Hp|Hp]; [done|]. rewrite <- Hn, Hp in Hsome. by destruct Hsome. }
    assert (Hdel : ∀ k, is_Some (delete (name p) kw !! k) →
                        ∃ q, q ∈ ps ∧ name q = k ∧ by_keyword q).
    { intros k [v Hv]. apply lookup_delete_Some in Hv as [Hne Hv].
      destruct (Hkeys k) as (q & Hq & Hn & Hbk); [eauto|].
      apply elem_of_cons in Hq as [->|Hq]; [done|eauto]. }
    cbn [bind_loop] in Hb. unfold use_default in Hb.
    destruct (pkind p) eqn:Hkind.
    + destruct (default_value p); cbn in Hb; [|done].
      apply IH in Hb; try done. apply Hsame. left.
      intros [?|?]; congruence.
    + destruct (kw !! name p) eqn:Hlook.
      * by apply IH in Hb.
      * destruct (default_value p); cbn in Hb; [|done].
        apply IH in Hb; try done. apply Hsame. by right.
    + apply IH in Hb; try done. apply Hsame. left. intros [?|?]; congruence.
    + destruct (kw !! name p) eqn:Hlook.
      * by apply IH in Hb.
      * destruct (default_value p); cbn in Hb; [|done].
        apply IH in Hb; try done. apply Hsame. by right.
    + assert (Hempty : kw = ∅).
      { apply map_empty. intros k. destruct (kw !! k) eqn:Hlook; [|done].
        destruct (Hkeys k) as (q & Hq & Hn & Hbk); [by rewrite Hlook|].
        apply elem_of_cons in Hq as [->|Hq].
        - destruct Hbk as [?|?]; congruence.
        - by destruct (after_var_keyword _ _ _ Hwf Hkind Hq). }
      apply IH in Hb; try done.
      intros k Hsome. rewrite lookup_empty in Hsome. by destruct Hsome.
Qed.

(** X12.  The variadic parameters of the wrapped function receive nothing.
    When the call the gate makes binds, the function's [*args] is empty and
    its [**kwargs] is empty, whatever else the context holds: keys of the
    context that are not names of declared parameters are never passed. *)
Theorem variadics_receive_nothing (predicate : callable) (key : option string)
    (u : function) (l : loc) (st st1 : state) (p : value) (b : bound) :
  invoke predicate (positional (VRef l)) st = (Ret p, st1) →
  truthy (heap st1) p = true →
  well_formed (params u) →
  let kw := present_names (needed_names (params u)) (deref (heap st1) l) in
  bind_loop (params u) [] kw (Bound ∅ [] ∅) = Some b →
  star_args b = [] ∧ star_kwargs b = ∅
  ∧ drive (f (conditional_func (Some predicate) key (fn u))) (positional (VRef l)) st
    = (rv <- lift (code u b) ;; store key (VRef l) rv ;;; ret VNone)
        (State (heap st1) (trace st1 ++ [Call (fid u) (keywords kw)])).
Proof.
  intros Hp Ht Hwf kw Hb.
  destruct (bind_loop_variadics (params u) kw (Bound ∅ [] ∅) b Hwf) as [Ha Hk];
    try done.
  { intros k [v Hv]. by apply present_names_lookup in Hv as [_ ?]. }
  split; [exact Ha|]. split; [exact Hk|].
  rewrite (func_gate_true _ _ _ _ _ _ _ Hp Ht). unfold bind at 1 3.
  change (signature (fn u)) with (params u). fold kw.
  by rewrite (drive_fn_bound u (keywords kw) b st1 Hb).
Qed.

End MoreValueSteps.

(** * Edge cases of the gates *)

Section EdgeCases.

(** X13.  A predicate written as [async def] never stops anything.
    Calling it only makes a coroutine object, which is truthy, so a step
    gated by it runs the plain function it wraps on every context, without
    the predicate's body ever being run. *)
Theorem async_predicate_always_passes (pu u : function) (d : value) (st : state)
    (b : bound) :
  is_async pu = true →
  bind_loop (params pu) [d] ∅ (Bound ∅ [] ∅) = Some b →
  is_async u = false →
  let st1 := State (heap st) (trace st ++ [Call (fid pu) (positional d)]) in
  invoke (fn pu) (positional d) st = (Ret VCoroutine, st1)
  ∧ __call__ (conditional_proc (fn pu) (fn u)) d st = __call__ (__init__ (fn u)) d st1
  ∧ __call__ (__init__ (_condition (fn pu) (fn u))) d st
    = __call__ (__init__ (fn u)) d st1.
Proof.
  intros Hpu Hb Hu st1.
  assert (Hp : invoke (fn pu) (positional d) st = (Ret VCoroutine, st1)).
  { cbn. unfold bind, log, bind_arguments. cbn. by rewrite Hb, Hpu. }
  split; [exact Hp|]. split.
  - by apply proc_pass_through with VCoroutine.
  - rewrite condition_sync by done. unfold bind at 1.
    by rewrite (gate_body_true (fn pu) d st st1 _ _ VCoroutine Hp eq_refl).
Qed.

(** X14.  The context of a value-producing step has to be a dict.  On
    [None], a bool, an int or a coroutine object, once the predicate has
    passed: if the function has a by-keyword parameter, looking its name up
    in the context raises [TypeError] before the function is called; if it
    has none, the function is called, and the assignment of its result under
    a non-empty key raises [TypeError] in the state the function left. *)
Theorem context_must_be_a_dict (predicate : callable) (key : option string)
    (u : function) (d : value) (st st1 : state) (p : value) :
  match d with VRef _ | VStr _ => False | _ => True end →
  is_async u = false →
  invoke predicate (positional d) st = (Ret p, st1) →
  truthy (heap st1) p = true →
  (needed_names (params u) ≠ [] →
   __call__ (conditional_func (Some predicate) key (fn u)) d st = (Raise TypeError, st1))
  ∧ (needed_names (params u) = [] →
     ∀ k rv st2, key = Some k → k ≠ "" →
       invoke (fn u) (keywords ∅) st1 = (Ret rv, st2) →
       __call__ (conditional_func (Some predicate) key (fn u)) d st
       = (Raise TypeError, st2)).
Proof.
  intros Hd Hu Hp Ht.
  assert (Hrun : __call__ (conditional_func (Some predicate) key (fn u)) d st
    = ((kw <- subset_of d (needed_names (params u)) ∅ ;;
        rv <- invoke (fn u) (keywords kw) ;;
        store key d rv ;;; ret VNone) ;;; ret d) st1).
  { rewrite func_sync by done. unfold bind at 1.
    by rewrite (gate_body_true predicate d st st1 _ _ p Hp Ht). }
  split.
  - intros Hne. rewrite Hrun.
    destruct (needed_names (params u)) as [|k ks]; [done|].
    by destruct d.
  - intros Hnil k rv st2 -> Hk Hrv. rewrite Hrun, Hnil. cbn [subset_of].
    unfold bind at 1 2. cbn [ret]. rewrite (bind_ret_inv _ _ _ _ _ Hrv).
    unfold store. destruct (String.eqb_spec k ""); [done|].
    by destruct d.
Qed.

End EdgeCases.

(** * The further laws on the sample pipeline *)

Section MoreInstances.

Import Samples MoreSamples.

Local Ltac by_eval := vm_compute; reflexivity.

Lemma wrapper_forwards_gate_discards_witness :
  invoke (_condition default_predicate (fn x_positive)) (positional ctx) st0
  = (Ret (VBool true), st_pos)
  ∧ invoke (f (conditional_proc default_predicate (fn x_positive))) (positional ctx) st0
    = (Ret VNone, st_pos).
Proof.
  destruct (wrapper_forwards_gate_discards default_predicate (fn x_positive) ctx st0 st0
              (VBool true) eq_refl ltac:(by_eval) ltac:(by_eval)) as (H1 & H2 & _).
  split.
  - rewrite H1. by_eval.
  - apply (H2 (VBool true)). by_eval.
Defined.

Lemma plain_pass_through_witness :
  trace (__call__ (conditional_proc (fn x_positive) (fn mark)) ctx st0).2
  = [Call 10 (positional ctx); Call 20 (positional ctx)]
  ∧ trace (__call__ (conditional_func (Some (fn x_positive)) None (fn hyp2)) ctx st0).2
    = trace st_called.
Proof.
  destruct (plain_pass_through (fn x_positive) mark None 0 st0 st_pos (VBool true)
              eq_refl ltac:(by_eval) ltac:(by_eval)) as (_ & _ & H3 & _).
  destruct (plain_pass_through (fn x_positive) hyp2 None 0 st0 st_pos (VBool true)
              eq_refl ltac:(by_eval) ltac:(by_eval)) as (_ & _ & _ & H4).
  split; [exact H3|]. etrans; [exact H4|by_eval].
Defined.

Lemma coroutine_steps_are_inert_witness :
  __call__ (conditional_proc (fn x_positive) (fn amark)) ctx st0 = (Ret ctx, st0)
  ∧ __call__ (__rshift__ (__init__ (fn mark))
                         (instance (conditional_proc (fn x_positive) (fn amark))))
             ctx st0
    = (Ret ctx, st_marked [Call 20 (positional ctx)]).
Proof.
  destruct (coroutine_steps_are_inert (fn x_positive) (fn amark) None
              (__init__ (fn mark)) ctx st0 eq_refl) as (H1 & _ & _ & H4).
  split; [exact H1|]. rewrite H4. by_eval.
Defined.

Lemma awaited_gate_mirrors_plain_witness :
  await_invoke (f (conditional_proc default_predicate (fn amark))) (positional ctx) st0
  = (Ret VNone, st_marked [Call 21 (positional ctx)]).
Proof.
  destruct (awaited_gate_mirrors_plain default_predicate amark None ctx st0 eq_refl)
    as (_ & H2 & _).
  rewrite H2. by_eval.
Defined.

Lemma gates_nest_witness :
  __call__ (conditional_proc (fn x_positive) (_condition (fn has_y) (fn mark))) ctx st0
  = (Ret ctx, st_marked [Call 10 (positional ctx); Call 12 (positional ctx);
                         Call 20 (positional ctx)])
  ∧ __call__ (conditional_proc (fn x_positive) (_condition (fn has_y) (fn mark))) ctx st_x
    = (Ret ctx, State (heap st_x) [Call 10 (positional ctx); Call 12 (positional ctx)]).
Proof.
  split.
  - destruct (gates_nest (fn has_y) (fn x_positive) (fn mark) ctx st0 st_pos (VBool true)
                eq_refl ltac:(by_eval)) as (_ & _ & _ & _ & H).
    rewrite (H (VBool true)
               (State (heap st0) [Call 10 (positional ctx); Call 12 (positional ctx)])
               ltac:(by_eval) ltac:(by_eval) ltac:(by_eval)).
    by_eval.
  - destruct (gates_nest (fn has_y) (fn x_positive) (fn mark) ctx st_x st_x_pos
                (VBool true) eq_refl ltac:(by_eval)) as (_ & _ & _ & H & _).
    apply (H (VBool false)); by_eval.
Defined.

Lemma no_key_no_write_witness :
  __rrshift__ (conditional_func (Some (fn x_positive)) None (fn hyp2)) ctx st0
  = (Ret ctx, st_called).
Proof.
  destruct (no_key_no_write (fn x_positive) (fn hyp2) None 0 st0 st_pos st_called
              (VBool true) (VInt 25)
              ltac:(by left) ltac:(by_eval) ltac:(by_eval) ltac:(by_eval)) as [_ H].
  exact (H eq_refl).
Defined.

Lemma store_is_local_witness :
  let after := (drive (f (conditional_func (Some (fn x_positive)) (Some "x")
                                           (fn double_x)))
                      (positional ctx) st0).2 in
  deref (heap after) 0 !! "y" = Some (VInt 4)
  ∧ deref (heap after) 0 !! "x" = Some (VInt 6).
Proof.
  destruct (store_is_local (fn x_positive) (fn double_x) "x" 0 st0 st_pos
              st_double_called (VBool true) (VInt 6)
              ltac:(done) ltac:(by_eval) ltac:(by_eval) ltac:(by_eval))
    as (H1 & _ & _ & H4).
  split.
  - etrans; [exact (H1 "y" ltac:(done))|by_eval].
  - apply (H4 (VInt 3)). by_eval.
Defined.

Lemma positional_only_is_never_supplied_witness :
  drive (f (conditional_func (Some default_predicate) (Some "out") (fn first)))
        (positional ctx) st0
  = (Raise TypeError, State (heap st0) [Call 30 (keywords ∅)]).
Proof.
  destruct (positional_only_is_never_supplied default_predicate (Some "out") first 0
              st0 st0 (VBool true) (Param "x" POSITIONAL_ONLY None)
              ltac:(by_eval) ltac:(by_eval) ltac:(by left) eq_refl) as [_ H].
  etrans; [exact (H eq_refl)|by_eval].
Defined.

Lemma well_formed_count_extra : well_formed (params count_extra).
Proof. split; [compute_done|repeat constructor]. Qed.

Lemma variadics_receive_nothing_witness :
  star_kwargs bound_x = ∅
  ∧ drive (f (conditional_func (Some default_predicate) (Some "extras") (fn count_extra)))
          (positional ctx) st0
    = (Ret VNone, st_extras).
Proof.
  destruct (variadics_receive_nothing default_predicate (Some "extras") count_extra 0
              st0 st0 (VBool true) bound_x
              ltac:(by_eval) ltac:(by_eval) well_formed_count_extra ltac:(by_eval))
    as (_ & H2 & H3).
  split; [exact H2|]. etrans; [exact H3|by_eval].
Defined.

Lemma async_predicate_always_passes_witness :
  __call__ (conditional_proc (fn never) (fn mark)) ctx st0
  = (Ret ctx, st_marked [Call 13 (positional ctx); Call 20 (positional ctx)]).
Proof.
  destruct (async_predicate_always_passes never mark ctx st0
              bound_ctx eq_refl ltac:(by_eval) eq_refl)
    as (_ & H & _).
  rewrite H. by_eval.
Defined.

Lemma context_must_be_a_dict_witness :
  __call__ (conditional_func (Some default_predicate) None (fn hyp2)) VNone st0
  = (Raise TypeError, st0)
  ∧ __call__ (conditional_func (Some default_predicate) (Some "out") (fn nothing))
             (VInt 7) st0
    = (Raise TypeError, State (heap st0) [Call 4 (keywords ∅)]).
Proof.
  split.
  - destruct (context_must_be_a_dict default_predicate None hyp2 VNone st0 st0
                (VBool true) I eq_refl ltac:(by_eval) ltac:(by_eval)) as [H _].
    apply H. intros Hn. vm_compute in Hn. discriminate.
  - destruct (context_must_be_a_dict default_predicate (Some "out") nothing (VInt 7)
                st0 st0 (VBool true) I eq_refl ltac:(by_eval) ltac:(by_eval))
      as [_ H].
    apply (H eq_refl "out" VNone); [done|done|by_eval].
Defined.

End MoreInstances.
